(** * core-js-101: string tasks and the css selector builder

    A shallow embedding of [src/01-strings-tasks.js] (module [StringsTasks])
    and of the [cssSelectorBuilder] object of the objects tasks (module
    [cssSelectorBuilder]), with the properties the specification states
    about them. *)

From Stdlib Require Import String Ascii List Bool Arith NArith ZArith Lia PrimFloat.
Import ListNotations.

(** ** JavaScript strings

    A JavaScript string is a finite sequence of UTF-16 code units.  [split('')],
    [includes], [indexOf] on arrays of strings, [concat] and [+] all work on
    that sequence, so a string is a list of code units here; [++] is string
    concatenation. *)

Module JS.

Definition code_unit : Type := N.
Definition jsstring : Type := list code_unit.

(** The source files are UTF-8.  [utf16] reads a literal written in this file
    (a sequence of UTF-8 bytes) as the code units the JavaScript literal
    denotes; code points beyond the basic plane become a surrogate pair. *)
Definition emit (cp : N) : jsstring :=
  if (cp <? 65536)%N then [cp]
  else [(55296 + (cp - 65536) / 1024)%N; (56320 + (cp - 65536) mod 1024)%N].

Fixpoint decode (need : nat) (acc : N) (s : string) : jsstring :=
  match s with
  | EmptyString => []
  | String a s' =>
      let b := N_of_ascii a in
      match need with
      | O =>
          if (b <? 128)%N then b :: decode 0 0%N s'
          else if (b <? 224)%N then decode 1 (b - 192)%N s'
          else if (b <? 240)%N then decode 2 (b - 224)%N s'
          else decode 3 (b - 240)%N s'
      | S O => emit (acc * 64 + (b - 128))%N ++ decode 0 0%N s'
      | S k => decode k (acc * 64 + (b - 128))%N s'
      end
  end.

Definition utf16 (s : string) : jsstring := decode 0 0%N s.
Arguments utf16 s%_string.

(** ['\n'] *)
Definition LF : jsstring := [10%N].

Definition jsstring_eq_dec : forall s t : jsstring, {s = t} + {s <> t} :=
  list_eq_dec N.eq_dec.

(** [s === t] on two strings. *)
Definition strict_eqb (s t : jsstring) : bool :=
  if jsstring_eq_dec s t then true else false.

(** [s.startsWith(p)], used by [includes] below. *)
Fixpoint startsWith (s p : jsstring) : bool :=
  match p, s with
  | [], _ => true
  | _ :: _, [] => false
  | x :: p', y :: s' => (x =? y)%N && startsWith s' p'
  end.

(** [s.includes(p)]: [p] occurs in [s] as a substring. *)
Fixpoint includes (s p : jsstring) : bool :=
  startsWith s p
  || match s with
     | [] => false
     | _ :: s' => includes s' p
     end.

(** [s.split('')]: one string per code unit. *)
Definition split_empty (s : jsstring) : list jsstring :=
  map (fun c => [c]) s.

(** [a.join('')] *)
Definition join_empty (a : list jsstring) : jsstring := concat a.

(** [s.codePointAt()] (position 0).  The code only calls it on strings made
    of one code unit, where it is that code unit. *)
Definition codePointAt (s : jsstring) : N := hd 0%N s.

(** [String.fromCharCode(n)] *)
Definition fromCharCode (n : N) : jsstring := [(n mod 65536)%N].

(** [toUpperCase()] and [toLocaleLowerCase()] as the code uses them, on
    strings made of ASCII letters.  [toUpperCase] does not depend on the
    locale.  [toLocaleLowerCase] follows the default locale of the host: it
    is the plain lower-casing here, as in every default locale but Turkish
    and Azeri, where [I] lower-cases to U+0131.  Code units outside [a-z]
    (resp. [A-Z]) are kept. *)
Definition upper_unit (c : code_unit) : code_unit :=
  if ((97 <=? c) && (c <=? 122))%N then (c - 32)%N else c.
Definition lower_unit (c : code_unit) : code_unit :=
  if ((65 <=? c) && (c <=? 90))%N then (c + 32)%N else c.
Definition toUpperCase (s : jsstring) : jsstring := map upper_unit s.
Definition toLocaleLowerCase (s : jsstring) : jsstring := map lower_unit s.

(** [a.indexOf(v)] on an array of strings: the first position holding a
    string strictly equal to [v], or [-1]. *)
Fixpoint indexOf_from (a : list jsstring) (v : jsstring) (i : Z) : Z :=
  match a with
  | [] => (-1)%Z
  | x :: a' => if strict_eqb x v then i else indexOf_from a' v (i + 1)%Z
  end.
Definition indexOf (a : list jsstring) (v : jsstring) : Z := indexOf_from a v 0%Z.

(** [for (let i = 0; i < bound; i += 1) body], on a state [s]. *)
Fixpoint for_from {St : Type} (count : nat) (i : Z) (body : Z -> St -> St) (s : St) : St :=
  match count with
  | O => s
  | S k => for_from k (i + 1)%Z body (body i s)
  end.
Definition for_lt {St : Type} (bound : Z) (body : Z -> St -> St) (s : St) : St :=
  for_from (Z.to_nat bound) 0%Z body s.

(** [s.slice(start, end)] on integers: a negative position counts from the
    end of the string, both positions are brought into [0, s.length], and an
    empty range gives the empty string. *)
Definition slice (s : jsstring) (start end_ : Z) : jsstring :=
  let len := Z.of_nat (length s) in
  let from := if (start <? 0)%Z then Z.max (len + start) 0 else Z.min start len in
  let to := if (end_ <? 0)%Z then Z.max (len + end_) 0 else Z.min end_ len in
  firstn (Z.to_nat (to - from)) (skipn (Z.to_nat from) s).

(** A call that returns or throws a [RangeError]. *)
Inductive or_RangeError (A : Type) : Type :=
| Returns (a : A)
| RangeError.
Arguments Returns {A} a.
Arguments RangeError {A}.

(** [s.repeat(count)] on an integer count.  A negative count throws
    (invalid count value), and so does a count that would make the result
    longer than the longest string the engine builds (invalid string
    length).  That length is the engine's own constant, not a part of the
    program, so it is a parameter: [max_string_length], which is
    [2^29 - 24] in V8 on 64 bits. *)
Definition String_repeat (max_string_length : Z) (s : jsstring) (count : Z)
  : or_RangeError jsstring :=
  if (count <? 0)%Z then RangeError
  else if (max_string_length <? Z.of_nat (length s) * count)%Z then RangeError
  else Returns (concat (repeat s (Z.to_nat count))).

(** [s.replace(searchValue, replaceValue)], both strings, [replaceValue]
    without [$]: the first occurrence of [searchValue], if any, is replaced. *)
Fixpoint String_replace (s searchValue replaceValue : jsstring) : jsstring :=
  if startsWith s searchValue then replaceValue ++ skipn (length searchValue) s
  else match s with
       | [] => []
       | c :: s' => c :: String_replace s' searchValue replaceValue
       end.

(** [s.split(sep)], [sep] a string of one code unit: the pieces between the
    occurrences of [sep], in order; one piece, the empty string, when [s] is
    empty. *)
Fixpoint split_unit (s : jsstring) (sep : code_unit) : list jsstring :=
  match s with
  | [] => [[]]
  | c :: s' =>
      if (c =? sep)%N then [] :: split_unit s' sep
      else match split_unit s' sep with
           | piece :: pieces => (c :: piece) :: pieces
           | [] => [[c]]
           end
  end.

(** The code units [trim()] removes: white space (tab, vertical tab, form
    feed, space, no-break space, the byte order mark and the other space
    separators) and line terminators. *)
Definition is_white_space (c : code_unit) : bool :=
  existsb (N.eqb c)
    [9; 10; 11; 12; 13; 32; 160; 5760; 8232; 8233; 8239; 8287; 12288; 65279]%N
  || ((8192 <=? c) && (c <=? 8202))%N.

(** [s.trimStart()], [s.trimEnd()], [s.trim()] *)
Fixpoint trimStart (s : jsstring) : jsstring :=
  match s with
  | [] => []
  | c :: s' => if is_white_space c then trimStart s' else s
  end.
Definition trimEnd (s : jsstring) : jsstring := rev (trimStart (rev s)).
Definition trim (s : jsstring) : jsstring := trimEnd (trimStart s).

(** *** Values, for [typeof] and [instanceof] *)

(** The objects a prototype chain can go through, as far as the code tells
    them apart. *)
Inductive prototype : Type :=
| StringPrototype
| ObjectPrototype
| OtherPrototype (n : nat).

(** A value: a primitive, or an object (callable or not) with its prototype
    chain, nearest first. *)
Inductive value : Type :=
| VUndefined
| VNull
| VBoolean (b : bool)
| VNumber (x : float)
| VBigInt (n : Z)
| VSymbol (n : nat)
| VString (s : jsstring)
| VObject (callable : bool) (chain : list prototype).

Inductive type_tag : Type :=
| TUndefined | TObject | TBoolean | TNumber | TBigInt | TSymbol | TString | TFunction.

(** [typeof v] *)
Definition typeof (v : value) : type_tag :=
  match v with
  | VUndefined => TUndefined
  | VNull => TObject
  | VBoolean _ => TBoolean
  | VNumber _ => TNumber
  | VBigInt _ => TBigInt
  | VSymbol _ => TSymbol
  | VString _ => TString
  | VObject true _ => TFunction
  | VObject false _ => TObject
  end.

Definition type_tag_eqb (a b : type_tag) : bool :=
  match a, b with
  | TUndefined, TUndefined | TObject, TObject | TBoolean, TBoolean
  | TNumber, TNumber | TBigInt, TBigInt | TSymbol, TSymbol
  | TString, TString | TFunction, TFunction => true
  | _, _ => false
  end.

Definition is_StringPrototype (p : prototype) : bool :=
  match p with
  | StringPrototype => true
  | _ => false
  end.

(** [v instanceof String]: false on a primitive; on an object, whether
    [String.prototype] is on its prototype chain. *)
Definition instanceof_String (v : value) : bool :=
  match v with
  | VObject _ chain => existsb is_StringPrototype chain
  | _ => false
  end.

(** [new String(s)] *)
Definition new_String (s : jsstring) : value :=
  VObject false [StringPrototype; ObjectPrototype].

End JS.

Import JS.

(** ** src/01-strings-tasks.js *)

Module StringsTasks.

Definition concatenateStrings (value1 value2 : jsstring) : jsstring :=
  value1 ++ value2.

Definition getStringLength (value : jsstring) : Z := Z.of_nat (length value).

Definition getStringFromTemplate (firstName lastName : jsstring) : jsstring :=
  utf16 "Hello, " ++ firstName ++ utf16 " " ++ lastName ++ utf16 "!".

Definition extractNameFromTemplate (value : jsstring) : jsstring :=
  slice value 7 (Z.of_nat (length value) - 1).

Definition getFirstChar (value : jsstring) : jsstring := slice value 0 1.

Definition removeLeadingAndTrailingWhitespaces (value : jsstring) : jsstring :=
  trim value.

Definition repeatString (max_string_length : Z) (value : jsstring) (count : Z)
  : or_RangeError jsstring :=
  String_repeat max_string_length value count.

Definition removeFirstOccurrences (str value : jsstring) : jsstring :=
  String_replace str value [].

Definition unbracketTag (str : jsstring) : jsstring :=
  slice str 1 (Z.of_nat (length str) - 1).

Definition extractEmails (str : jsstring) : list jsstring :=
  split_unit str 59%N.

(** [getRectangleString(width, height)] on integers. *)
Definition getRectangleString (width height : Z) : jsstring :=
  for_lt height
    (fun i result =>
       if (i =? 0)%Z then
         let resultRow := utf16 "┌" in
         let resultRow := for_lt (width - 2) (fun _ resultRow => resultRow ++ utf16 "─") resultRow in
         let resultRow := resultRow ++ utf16 "┐" ++ LF in
         result ++ resultRow
       else if (i =? height - 1)%Z then
         let resultRow := utf16 "└" in
         let resultRow := for_lt (width - 2) (fun _ resultRow => resultRow ++ utf16 "─") resultRow in
         let resultRow := resultRow ++ utf16 "┘" ++ LF in
         result ++ resultRow
       else
         let resultRow := utf16 "│" in
         let resultRow := for_lt (width - 2) (fun _ resultRow => resultRow ++ utf16 " ") resultRow in
         let resultRow := resultRow ++ utf16 "│" ++ LF in
         result ++ resultRow)
    [].

(** The inner function of [encodeToRot13]. *)
Definition codeItem (code : N) : jsstring :=
  if (code <? 78)%N then fromCharCode (code + 13)
  else if (code <? 91)%N then fromCharCode (code - 13)
  else [].

Definition letters : jsstring :=
  utf16 "ABCDEFGHIJKLMNOPQRSTUVWXYZabcdefghijklmnopqrstuvwxyz".

(** The callback [encodeToRot13] maps over the split string. *)
Definition encodeItem (item : jsstring) : jsstring :=
  if includes letters item then
    if strict_eqb item (toUpperCase item) then codeItem (codePointAt item)
    else toLocaleLowerCase (codeItem (codePointAt (toUpperCase item)))
  else item.

Definition encodeToRot13 (str : jsstring) : jsstring :=
  join_empty (map encodeItem (split_empty str)).

(** [isString(value)] *)
Definition isString (v : value) : bool :=
  if type_tag_eqb (typeof v) TString then true else instanceof_String v.

Definition mass : list jsstring :=
  [ utf16 "A♣"; utf16 "2♣"; utf16 "3♣"; utf16 "4♣"; utf16 "5♣"; utf16 "6♣"; utf16 "7♣";
    utf16 "8♣"; utf16 "9♣"; utf16 "10♣"; utf16 "J♣"; utf16 "Q♣"; utf16 "K♣";
    utf16 "A♦"; utf16 "2♦"; utf16 "3♦"; utf16 "4♦"; utf16 "5♦"; utf16 "6♦"; utf16 "7♦";
    utf16 "8♦"; utf16 "9♦"; utf16 "10♦"; utf16 "J♦"; utf16 "Q♦"; utf16 "K♦";
    utf16 "A♥"; utf16 "2♥"; utf16 "3♥"; utf16 "4♥"; utf16 "5♥"; utf16 "6♥"; utf16 "7♥";
    utf16 "8♥"; utf16 "9♥"; utf16 "10♥"; utf16 "J♥"; utf16 "Q♥"; utf16 "K♥";
    utf16 "A♠"; utf16 "2♠"; utf16 "3♠"; utf16 "4♠"; utf16 "5♠"; utf16 "6♠"; utf16 "7♠";
    utf16 "8♠"; utf16 "9♠"; utf16 "10♠"; utf16 "J♠"; utf16 "Q♠"; utf16 "K♠" ].

(** [getCardId(value)] on a string. *)
Definition getCardId (v : jsstring) : Z := indexOf mass v.

End StringsTasks.

(** ** The vocabulary of the specification, for the string tasks *)

Module StringsSpec.

Import StringsTasks.

(** A code unit that is an ASCII letter. *)
Definition is_ascii_letter (c : code_unit) : bool :=
  ((65 <=? c) && (c <=? 90) || (97 <=? c) && (c <=? 122))%N.

(** ROT13 on one code unit: a letter moves 13 places within its case, any
    other code unit stays. *)
Definition rot13 (c : code_unit) : code_unit :=
  if ((65 <=? c) && (c <=? 77) || (97 <=? c) && (c <=? 109))%N then (c + 13)%N
  else if ((78 <=? c) && (c <=? 90) || (110 <=? c) && (c <=? 122))%N then (c - 13)%N
  else c.

(** The deck of the documentation: suit after suit, and in each suit the
    thirteen ranks in order. *)
Definition suits : list jsstring := [utf16 "♣"; utf16 "♦"; utf16 "♥"; utf16 "♠"].
Definition ranks : list jsstring :=
  [utf16 "A"; utf16 "2"; utf16 "3"; utf16 "4"; utf16 "5"; utf16 "6"; utf16 "7";
   utf16 "8"; utf16 "9"; utf16 "10"; utf16 "J"; utf16 "Q"; utf16 "K"].
Definition card (suit rank : nat) : jsstring := nth rank ranks [] ++ nth suit suits [].
Definition deck : list jsstring :=
  flat_map (fun suit => map (fun rank => rank ++ suit) ranks) suits.

(** The rows of a box [width] wide, [width] at least 2. *)
Definition top_row (width : Z) : jsstring :=
  utf16 "┌" ++ repeat 9472%N (Z.to_nat (width - 2)) ++ utf16 "┐" ++ LF.
Definition middle_row (width : Z) : jsstring :=
  utf16 "│" ++ repeat 32%N (Z.to_nat (width - 2)) ++ utf16 "│" ++ LF.
Definition bottom_row (width : Z) : jsstring :=
  utf16 "└" ++ repeat 9472%N (Z.to_nat (width - 2)) ++ utf16 "┘" ++ LF.

(** [a.join(sep)] on an array of strings. *)
Fixpoint join (a : list jsstring) (sep : jsstring) : jsstring :=
  match a with
  | [] => []
  | [piece] => piece
  | piece :: a' => piece ++ sep ++ join a' sep
  end.

(** An upper-case, a lower-case ASCII letter. *)
Definition is_upper (c : code_unit) : bool := ((65 <=? c) && (c <=? 90))%N.
Definition is_lower (c : code_unit) : bool := ((97 <=? c) && (c <=? 122))%N.

(** [value] occurs in [str] at position [i]. *)
Definition occurs_at (str value : jsstring) (i : nat) : Prop :=
  exists before after, str = before ++ value ++ after /\ length before = i.

(** A string, primitive or an instance of [String]. *)
Definition is_string_value (v : value) : Prop :=
  (exists s, v = VString s)
  \/ (exists callable chain, v = VObject callable chain /\ In StringPrototype chain).

End StringsSpec.

(** ** The css selector builder

    [cssSelectorBuilder] is one object literal with two data properties,
    [result] and [index], and eight methods.  [element] copies the receiver
    into a new object ([{ ...this }]); every other method mutates the receiver
    and returns it.  Several references can therefore denote one object, so
    objects live in a store and methods take and return references.

    Every array held in [index] is created by an array literal of its own
    ([index: []], [this.index = []], [result.index = []]) and is reachable
    from one object only, so the array is kept as the value of the field. *)

Module Store.

Record builder : Type := { result : jsstring; index : list nat }.

Definition ref : Type := nat.

(** The store: what each reference denotes, and the next fresh reference. *)
Record heap : Type := { objs : ref -> builder; next : ref }.

(** The two messages the builder throws with, named as the specification
    names them. *)
Inductive error : Type :=
| DuplicateError
| OrderError.

Definition message (e : error) : jsstring :=
  match e with
  | DuplicateError =>
      utf16 "Element, id and pseudo-element should not occur more then one time inside the selector"
  | OrderError =>
      utf16 "Selector parts should be arranged in the following order: element, id, class, attribute, pseudo-class, pseudo-element"
  end.

Inductive completion (A : Type) : Type :=
| Normal (a : A)
| Throw (e : error).
Arguments Normal {A} a.
Arguments Throw {A} e.

(** A computation changes the store and completes normally or throws; what
    it did to the store before throwing stays done. *)
Definition M (A : Type) : Type := heap -> heap * completion A.

Definition ret {A : Type} (a : A) : M A := fun h => (h, Normal a).

Definition throw {A : Type} (e : error) : M A := fun h => (h, Throw e).

Definition bind {A B : Type} (m : M A) (k : A -> M B) : M B :=
  fun h =>
    match m h with
    | (h', Normal a) => k a h'
    | (h', Throw e) => (h', Throw e)
    end.

Declare Scope js_scope.
Delimit Scope js_scope with js.
Notation "x <- m ;; k" := (bind m (fun x => k))
  (at level 61, m at next level, right associativity) : js_scope.
Notation "m ;; k" := (bind m (fun _ => k))
  (at level 61, right associativity) : js_scope.
Open Scope js_scope.

Definition update (r : ref) (b : builder) (h : heap) : heap :=
  {| objs := fun r' => if Nat.eqb r' r then b else objs h r'; next := next h |}.

(** [r.result], [r.index], [r.result = s], [r.index = l] *)
Definition get_result (r : ref) : M jsstring := fun h => (h, Normal (result (objs h r))).
Definition get_index (r : ref) : M (list nat) := fun h => (h, Normal (index (objs h r))).
Definition set_result (r : ref) (s : jsstring) : M unit :=
  fun h => (update r {| result := s; index := index (objs h r) |} h, Normal tt).
Definition set_index (r : ref) (l : list nat) : M unit :=
  fun h => (update r {| result := result (objs h r); index := l |} h, Normal tt).

(** [{ ...r }]: a new object with the properties of [r]. *)
Definition spread (r : ref) : M ref :=
  fun h => ({| objs := fun r' => if Nat.eqb r' (next h) then objs h r else objs h r';
               next := S (next h) |}, Normal (next h)).

(** [r.index.push(x)] *)
Definition push (r : ref) (x : nat) : M unit :=
  l <- get_index r ;; set_index r (l ++ [x]).

(** [l.includes(x)] on an array of numbers. *)
Definition array_includes (l : list nat) (x : nat) : bool := existsb (Nat.eqb x) l.

(** [l.forEach(f)]: [f] on each element in turn; a throw of [f] ends it. *)
Fixpoint forEach (l : list nat) (f : nat -> M unit) : M unit :=
  match l with
  | [] => ret tt
  | item :: l' => f item ;; forEach l' f
  end.

(** [if (c) { m }] *)
Definition when (c : bool) (m : M unit) : M unit := if c then m else ret tt.

(** The module's top level: [cssSelectorBuilder] itself is object 0. *)
Definition the_builder : ref := 0.
Definition initial : heap :=
  {| objs := fun _ => {| result := []; index := [] |}; next := 1 |}.

End Store.

Import Store.

Module cssSelectorBuilder.

Definition element (this : ref) (value : jsstring) : M ref :=
  l <- get_index this ;;
  when (array_includes l 1) (set_index this [] ;; throw DuplicateError) ;;
  result <- spread this ;;
  set_result result value ;;
  set_index result [] ;;
  push result 1 ;;
  ret result.

Definition id (this : ref) (value : jsstring) : M ref :=
  l <- get_index this ;;
  when (array_includes l 2) (set_index this [] ;; throw DuplicateError) ;;
  l <- get_index this ;;
  forEach l (fun item => when (2 <? item) (set_index this [] ;; throw OrderError)) ;;
  push this 2 ;;
  s <- get_result this ;;
  set_result this (s ++ utf16 "#" ++ value) ;;
  ret this.

Definition class (this : ref) (value : jsstring) : M ref :=
  l <- get_index this ;;
  forEach l (fun item => when (3 <? item) (set_index this [] ;; throw OrderError)) ;;
  push this 3 ;;
  s <- get_result this ;;
  set_result this (s ++ utf16 "." ++ value) ;;
  ret this.

Definition attr (this : ref) (value : jsstring) : M ref :=
  l <- get_index this ;;
  forEach l (fun item => when (4 <? item) (set_index this [] ;; throw OrderError)) ;;
  push this 4 ;;
  s <- get_result this ;;
  set_result this (s ++ utf16 "[" ++ value ++ utf16 "]") ;;
  ret this.

Definition pseudoClass (this : ref) (value : jsstring) : M ref :=
  l <- get_index this ;;
  forEach l (fun item => when (5 <? item) (set_index this [] ;; throw OrderError)) ;;
  push this 5 ;;
  s <- get_result this ;;
  set_result this (s ++ utf16 ":" ++ value) ;;
  ret this.

Definition pseudoElement (this : ref) (value : jsstring) : M ref :=
  l <- get_index this ;;
  forEach l (fun item => when (6 <? item) (set_index this [] ;; throw OrderError)) ;;
  l <- get_index this ;;
  when (array_includes l 6) (set_index this [] ;; throw DuplicateError) ;;
  push this 6 ;;
  s <- get_result this ;;
  set_result this (s ++ utf16 "::" ++ value) ;;
  ret this.

Definition stringify (this : ref) : M jsstring :=
  res <- get_result this ;;
  set_result this [] ;;
  set_index this [] ;;
  ret res.

Definition combine (this sel1 : ref) (com : jsstring) (sel2 : ref) : M ref :=
  s1 <- stringify sel1 ;;
  s2 <- stringify sel2 ;;
  set_result this ((s1 ++ (utf16 " " ++ com ++ utf16 " ")) ++ s2) ;;
  ret this.

End cssSelectorBuilder.

Import cssSelectorBuilder.

(** ** The vocabulary of the specification *)

Module Selector.

Inductive category : Type :=
| Element
| Id
| Class
| Attribute
| PseudoClass
| PseudoElement.

Definition category_eq_dec (c d : category) : {c = d} + {c <> d}.
Proof. decide equality. Defined.

(** The number each method pushes on [index]. *)
Definition rank (c : category) : nat :=
  match c with
  | Element => 1
  | Id => 2
  | Class => 3
  | Attribute => 4
  | PseudoClass => 5
  | PseudoElement => 6
  end.

(** The fragment-adding operation of a category. *)
Definition add (c : category) : ref -> jsstring -> M ref :=
  match c with
  | Element => element
  | Id => id
  | Class => class
  | Attribute => attr
  | PseudoClass => pseudoClass
  | PseudoElement => pseudoElement
  end.

(** The categories that may occur once only. *)
Definition at_most_once (c : category) : bool :=
  match c with
  | Element | Id | PseudoElement => true
  | Class | Attribute | PseudoClass => false
  end.

(** The text of a fragment. *)
Definition render (c : category) (value : jsstring) : jsstring :=
  match c with
  | Element => value
  | Id => utf16 "#" ++ value
  | Class => utf16 "." ++ value
  | Attribute => utf16 "[" ++ value ++ utf16 "]"
  | PseudoClass => utf16 ":" ++ value
  | PseudoElement => utf16 "::" ++ value
  end.

(** The highest rank recorded in an [index] array (0 when it is empty). *)
Definition highest (l : list nat) : nat := fold_right Nat.max 0 l.


(** [this.m1(v1).m2(v2)...], each [mi] the method of a category: a chain of
    fragments added one after the other, each on what the one before
    returned. *)
Fixpoint add_chain (this : ref) (fragments : list (category * jsstring)) : M ref :=
  match fragments with
  | [] => ret this
  | (c, v) :: fragments' => r <- add c this v ;; add_chain r fragments'
  end.

(** What the guards of the method of a category decide from the receiver's
    [index]: the error thrown, if any, in the order the method tests. *)
Definition guard (c : category) (l : list nat) : option error :=
  match c with
  | Element => if array_includes l 1 then Some DuplicateError else None
  | Id =>
      if array_includes l 2 then Some DuplicateError
      else if existsb (Nat.ltb 2) l then Some OrderError
      else None
  | PseudoElement =>
      if existsb (Nat.ltb 6) l then Some OrderError
      else if array_includes l 6 then Some DuplicateError
      else None
  | _ => if existsb (Nat.ltb (rank c)) l then Some OrderError else None
  end.

(** The receiver after a throw: its [index] is a new empty array. *)
Definition cleared (this : ref) (h : heap) : heap :=
  update this {| result := result (objs h this); index := [] |} h.

(** The receiver of a method that returned normally, [c] not [Element]. *)
Definition added (c : category) (value : jsstring) (b : builder) : builder :=
  {| result := result b ++ render c value; index := index b ++ [rank c] |}.

(** Two stores that differ at most in what [r] denotes. *)
Definition same_except (r : ref) (h h' : heap) : Prop :=
  next h' = next h /\ forall r', r' <> r -> objs h' r' = objs h r'.

(** A call of the public interface, and the stores calls lead to from the
    initial one.  A call may name any reference, also one no call has
    returned yet, so [reachable] holds of every store a program can build,
    and of more. *)
Inductive call : Type :=
| Add (c : category) (this : ref) (value : jsstring)
| Combine (this sel1 : ref) (com : jsstring) (sel2 : ref)
| Stringify (this : ref).

Definition exec (c : call) (h : heap) : heap :=
  match c with
  | Add c this value => fst (add c this value h)
  | Combine this sel1 com sel2 => fst (combine this sel1 com sel2 h)
  | Stringify this => fst (stringify this h)
  end.

Definition run (calls : list call) (h : heap) : heap :=
  fold_left (fun h c => exec c h) calls h.

Definition reachable (h : heap) : Prop := exists calls, h = run calls initial.

(** What holds of every reachable store: object 0 exists, it never records
    an element, and every recorded rank is one of 1..6. *)
Record invariant (h : heap) : Prop := {
  inv_next : 1 <= next h;
  inv_builder : ~ In 1 (index (objs h the_builder));
  inv_ranks : forall r, Forall (fun i => 1 <= i <= 6) (index (objs h r))
}.

(** A list of numbers that never goes down. *)
Fixpoint nondecreasing (l : list nat) : bool :=
  match l with
  | x :: (y :: _) as l' => (x <=? y) && nondecreasing l'
  | _ => true
  end.

(** A sequence of categories in the order of the thrown message, with at
    most one id and at most one pseudo-element. *)
Definition well_ordered (cs : list category) : bool :=
  nondecreasing (map rank cs)
  && (count_occ category_eq_dec cs Id <=? 1)
  && (count_occ category_eq_dec cs PseudoElement <=? 1).

(** What an [index] array holds when the fragments recorded are in order: the
    ranks never go down, and 1, 2 and 6 (element, id, pseudo-element) occur
    at most once each. *)
Definition ordered_index (l : list nat) : bool :=
  nondecreasing l
  && (count_occ Nat.eq_dec l 1 <=? 1)
  && (count_occ Nat.eq_dec l 2 <=? 1)
  && (count_occ Nat.eq_dec l 6 <=? 1).

(** The guards of a chain of methods pass one after the other, each on what
    the receiver records by then. *)
Fixpoint accepts (l : list nat) (cs : list category) : bool :=
  match cs with
  | [] => true
  | c :: cs' =>
      match guard c l with
      | None => accepts (l ++ [rank c]) cs'
      | Some _ => false
      end
  end.

(** The text of a chain of fragments. *)
Definition render_all (fragments : list (category * jsstring)) : jsstring :=
  concat (map (fun f => render (fst f) (snd f)) fragments).

(** [this.combine(this.combine(a, c1, b), c3, this.combine(c, c2, d)).stringify()]:
    the arguments are evaluated left to right, then the outer call. *)
Definition combine_both_nested (this a : ref) (c1 : jsstring) (b c : ref) (c2 : jsstring)
    (d : ref) (c3 : jsstring) : M jsstring :=
  r1 <- combine this a c1 b ;;
  r2 <- combine this c c2 d ;;
  r <- combine this r1 c3 r2 ;;
  stringify r.

(** The chain of the six methods in rank order, then [stringify]. *)
Definition full_chain (this : ref) (tag idv cls att pc pe : jsstring) : M jsstring :=
  r <- element this tag ;;
  r <- id r idv ;;
  r <- class r cls ;;
  r <- attr r att ;;
  r <- pseudoClass r pc ;;
  r <- pseudoElement r pe ;;
  stringify r.

End Selector.

Import Selector.

(** ** Properties of the store and of the guards *)

Lemma bind_normal {A B : Type} (m : M A) (k : A -> M B) (h h' : heap) (a : A) :
  m h = (h', Normal a) -> bind m k h = k a h'.
Proof. intros E. unfold bind. now rewrite E. Qed.

Lemma bind_throw {A B : Type} (m : M A) (k : A -> M B) (h h' : heap) (e : error) :
  m h = (h', Throw e) -> bind m k h = (h', Throw e).
Proof. intros E. unfold bind. now rewrite E. Qed.

Lemma objs_update_same (r : ref) (b : builder) (h : heap) :
  objs (update r b h) r = b.
Proof. simpl. now rewrite Nat.eqb_refl. Qed.

Lemma objs_update_other (r r' : ref) (b : builder) (h : heap) :
  r' <> r -> objs (update r b h) r' = objs h r'.
Proof. intros D. simpl. apply Nat.eqb_neq in D. now rewrite D. Qed.

Lemma array_includes_In (l : list nat) (x : nat) :
  array_includes l x = true <-> In x l.
Proof.
  unfold array_includes. rewrite existsb_exists. split.
  - intros [y [Hy E]]. apply Nat.eqb_eq in E. now subst.
  - intros H. exists x. split; [assumption | apply Nat.eqb_refl].
Qed.

Lemma existsb_ltb_highest (k : nat) (l : list nat) :
  existsb (Nat.ltb k) l = (k <? highest l).
Proof.
  induction l as [| x l IH]; simpl.
  - symmetry. apply Nat.ltb_ge. lia.
  - rewrite IH. destruct (Nat.ltb_spec k x), (Nat.ltb_spec k (highest l)),
      (Nat.ltb_spec k (Nat.max x (highest l))); simpl; try reflexivity; lia.
Qed.

(** The order check of a method: the scan throws at the first recorded
    rank above [k], after assigning the empty array. *)
Lemma forEach_order_check (k : nat) (this : ref) (l : list nat) (h : heap) :
  forEach l (fun item => when (k <? item) (set_index this [] ;; throw OrderError)) h =
  if existsb (Nat.ltb k) l then (cleared this h, Throw OrderError) else (h, Normal tt).
Proof.
  induction l as [| item l IH]; simpl.
  - reflexivity.
  - unfold bind at 1. destruct (k <? item); simpl.
    + reflexivity.
    + apply IH.
Qed.

(** One step of a method body, as rewriting rules. *)
Lemma bind_assoc {A B C : Type} (m : M A) (k1 : A -> M B) (k2 : B -> M C) (h : heap) :
  bind (bind m k1) k2 h = bind m (fun a => bind (k1 a) k2) h.
Proof. unfold bind. destruct (m h) as [h' [a | e]]; reflexivity. Qed.

Lemma bind_ret {A B : Type} (a : A) (k : A -> M B) (h : heap) :
  bind (ret a) k h = k a h.
Proof. reflexivity. Qed.

Lemma bind_throw_now {A B : Type} (e : error) (k : A -> M B) (h : heap) :
  bind (throw e) k h = (h, Throw e).
Proof. reflexivity. Qed.

Lemma bind_get_index {B : Type} (r : ref) (k : list nat -> M B) (h : heap) :
  bind (get_index r) k h = k (index (objs h r)) h.
Proof. reflexivity. Qed.

Lemma bind_get_result {B : Type} (r : ref) (k : jsstring -> M B) (h : heap) :
  bind (get_result r) k h = k (result (objs h r)) h.
Proof. reflexivity. Qed.

Lemma bind_set_index {B : Type} (r : ref) (l : list nat) (k : unit -> M B) (h : heap) :
  bind (set_index r l) k h = k tt (update r {| result := result (objs h r); index := l |} h).
Proof. reflexivity. Qed.

Lemma bind_set_result {B : Type} (r : ref) (s : jsstring) (k : unit -> M B) (h : heap) :
  bind (set_result r s) k h = k tt (update r {| result := s; index := index (objs h r) |} h).
Proof. reflexivity. Qed.

Lemma bind_push {B : Type} (r : ref) (x : nat) (k : unit -> M B) (h : heap) :
  bind (push r x) k h =
  k tt (update r {| result := result (objs h r); index := index (objs h r) ++ [x] |} h).
Proof. reflexivity. Qed.

Lemma bind_when_true {B : Type} (m : M unit) (k : unit -> M B) (h : heap) :
  bind (when true m) k h = bind m k h.
Proof. reflexivity. Qed.

Lemma bind_when_false {B : Type} (m : M unit) (k : unit -> M B) (h : heap) :
  bind (when false m) k h = k tt h.
Proof. reflexivity. Qed.

Lemma bind_order_check {B : Type} (n : nat) (this : ref) (l : list nat)
    (k : unit -> M B) (h : heap) :
  bind (forEach l (fun item => when (n <? item) (set_index this [] ;; throw OrderError))) k h =
  if existsb (Nat.ltb n) l then (cleared this h, Throw OrderError) else k tt h.
Proof.
  unfold bind at 1. rewrite forEach_order_check.
  destruct (existsb (Nat.ltb n) l); reflexivity.
Qed.

Lemma throw_run {A : Type} (e : error) (h : heap) : @throw A e h = (h, Throw e).
Proof. reflexivity. Qed.

Lemma ret_run {A : Type} (a : A) (h : heap) : ret a h = (h, Normal a).
Proof. reflexivity. Qed.

Create Rewrite HintDb js_step.
#[local] Hint Rewrite @bind_assoc @bind_ret @bind_throw_now @bind_get_index
  @bind_get_result @bind_set_index @bind_set_result @bind_push @bind_when_true
  @bind_when_false @throw_run @ret_run objs_update_same : js_step.

(** Unfold the method of a category and run its guards on the receiver's
    [index], one case per outcome of the tests. *)
Ltac run_guards :=
  unfold add, element, id, class, attr, pseudoClass, pseudoElement, guard, rank;
  repeat first
    [ progress autorewrite with js_step
    | rewrite bind_order_check
    | match goal with
      | |- context [array_includes ?l ?x] => destruct (array_includes l x) eqn:?
      | |- context [existsb ?f ?l] => destruct (existsb f l) eqn:?
      end ].

Lemma add_throws (c : category) (this : ref) (value : jsstring) (h : heap) (e : error) :
  guard c (index (objs h this)) = Some e ->
  add c this value h = (cleared this h, Throw e).
Proof.
  destruct c; run_guards; intros E; try discriminate E.
  all: injection E as <-; reflexivity.
Qed.

Lemma add_returns (c : category) (this : ref) (value : jsstring) (h : heap) :
  c <> Element ->
  guard c (index (objs h this)) = None ->
  exists h', add c this value h = (h', Normal this)
             /\ objs h' this = added c value (objs h this)
             /\ same_except this h h'.
Proof.
  intros NE.
  destruct c; try congruence; run_guards; intros E; try discriminate E.
  all: eexists; split; [reflexivity | split].
  all: try (rewrite objs_update_same; reflexivity).
  all: split; [reflexivity | intros r' D; now rewrite !objs_update_other by exact D].
Qed.

(** [element] on a receiver that records no element: a new object, the
    receiver and every other object untouched. *)
Lemma element_returns (this : ref) (value : jsstring) (h : heap) :
  guard Element (index (objs h this)) = None ->
  exists h', element this value h = (h', Normal (next h))
             /\ objs h' (next h) = {| result := value; index := [1] |}
             /\ next h' = S (next h)
             /\ forall r, r <> next h -> objs h' r = objs h r.
Proof.
  run_guards; intros E; try discriminate E.
  unfold bind at 1, spread at 1. cbv beta iota.
  autorewrite with js_step.
  eexists; split; [reflexivity | repeat split].
  - rewrite objs_update_same. reflexivity.
  - intros r D. rewrite !objs_update_other by exact D.
    simpl. apply Nat.eqb_neq in D. now rewrite D.
Qed.

(** A method that throws has tested the guard, and the store is the one it
    started from with the receiver's [index] replaced. *)
Lemma add_throw_inv (c : category) (this : ref) (value : jsstring) (h h' : heap) (e : error) :
  add c this value h = (h', Throw e) ->
  guard c (index (objs h this)) = Some e /\ h' = cleared this h.
Proof.
  intros R.
  destruct (guard c (index (objs h this))) as [e' |] eqn:G.
  - rewrite (add_throws c this value h e' G) in R.
    injection R as <- <-. split; reflexivity.
  - destruct (category_eq_dec c Element) as [-> | NE].
    + destruct (element_returns this value h G) as [h1 [R1 _]].
      simpl in R. rewrite R1 in R. discriminate R.
    + destruct (add_returns c this value h NE G) as [h1 [R1 _]].
      rewrite R1 in R. discriminate R.
Qed.

(** A guard only throws on a receiver that records something. *)
Lemma guard_nil (c : category) : guard c [] = None.
Proof. destruct c; reflexivity. Qed.

Lemma stringify_run (this : ref) (h : heap) :
  exists h', stringify this h = (h', Normal (result (objs h this)))
             /\ objs h' this = {| result := []; index := [] |}
             /\ same_except this h h'.
Proof.
  unfold stringify. autorewrite with js_step.
  eexists; split; [reflexivity | split].
  - rewrite objs_update_same. reflexivity.
  - split; [reflexivity | intros r' D; now rewrite !objs_update_other by exact D].
Qed.

Lemma combine_run (this sel1 sel2 : ref) (com : jsstring) (h : heap) :
  exists h', combine this sel1 com sel2 h = (h', Normal this)
    /\ next h' = next h
    /\ result (objs h' this) =
         result (objs h sel1) ++ utf16 " " ++ com ++ utf16 " "
         ++ (if Nat.eqb sel2 sel1 then [] else result (objs h sel2))
    /\ forall r, index (objs h' r) =
         if Nat.eqb r sel1 || Nat.eqb r sel2 then [] else index (objs h r).
Proof.
  unfold combine, stringify. autorewrite with js_step.
  eexists; split; [reflexivity | split; [reflexivity | split]].
  - rewrite objs_update_same. cbn [result objs update].
    destruct (Nat.eqb sel2 sel1); rewrite <- !app_assoc; reflexivity.
  - intros r. cbn [objs update index].
    repeat first
      [ rewrite Nat.eqb_refl
      | match goal with
        | |- context [Nat.eqb ?a ?b] => destruct (Nat.eqb_spec a b); subst
        end ];
      cbn [index orb]; congruence.
Qed.

(** ** Every reachable store satisfies the invariant *)

Lemma invariant_initial : invariant initial.
Proof.
  split; simpl.
  - lia.
  - intros [].
  - intros r. constructor.
Qed.

Lemma rank_bounds (c : category) : 1 <= rank c <= 6.
Proof. destruct c; simpl; lia. Qed.

Lemma invariant_cleared (this : ref) (h : heap) :
  invariant h -> invariant (cleared this h).
Proof.
  intros [Hn Hb Hr]. split.
  - exact Hn.
  - unfold cleared. cbn [objs update].
    destruct (Nat.eqb the_builder this); [intros [] | exact Hb].
  - intros r. unfold cleared. cbn [objs update].
    destruct (Nat.eqb r this); [constructor | apply Hr].
Qed.

Lemma invariant_add (c : category) (this : ref) (value : jsstring) (h : heap) :
  invariant h -> invariant (fst (add c this value h)).
Proof.
  intros I.
  destruct (guard c (index (objs h this))) as [e |] eqn:G.
  - rewrite (add_throws c this value h e G). now apply invariant_cleared.
  - destruct I as [Hn Hb Hr].
    destruct (category_eq_dec c Element) as [-> | NE].
    + destruct (element_returns this value h G) as [h' [R [Hnew [Hnext Hold]]]].
      simpl. rewrite R. cbn [fst]. split.
      * lia.
      * rewrite Hold by (unfold the_builder; lia). exact Hb.
      * intros r. destruct (Nat.eq_dec r (next h)) as [-> | D].
        -- rewrite Hnew. repeat constructor.
        -- rewrite (Hold r D). apply Hr.
    + destruct (add_returns c this value h NE G) as [h' [R [Hthis [Hnext Hold]]]].
      rewrite R. cbn [fst]. split.
      * lia.
      * destruct (Nat.eq_dec the_builder this) as [<- | D].
        -- rewrite Hthis. cbn [added index]. rewrite in_app_iff.
           intros [H1 | [H1 | []]]; [now apply Hb |].
           destruct c; simpl in H1; congruence.
        -- rewrite (Hold _ D). exact Hb.
      * intros r. destruct (Nat.eq_dec r this) as [-> | D].
        -- rewrite Hthis. cbn [added index]. apply Forall_app. split; [apply Hr |].
           constructor; [apply rank_bounds | constructor].
        -- rewrite (Hold r D). apply Hr.
Qed.

Lemma invariant_stringify (this : ref) (h : heap) :
  invariant h -> invariant (fst (stringify this h)).
Proof.
  intros [Hn Hb Hr].
  destruct (stringify_run this h) as [h' [R [Hthis [Hnext Hold]]]].
  rewrite R. cbn [fst]. split.
  - lia.
  - destruct (Nat.eq_dec the_builder this) as [<- | D].
    + rewrite Hthis. intros [].
    + rewrite (Hold _ D). exact Hb.
  - intros r. destruct (Nat.eq_dec r this) as [-> | D].
    + rewrite Hthis. constructor.
    + rewrite (Hold r D). apply Hr.
Qed.

Lemma invariant_combine (this sel1 sel2 : ref) (com : jsstring) (h : heap) :
  invariant h -> invariant (fst (combine this sel1 com sel2 h)).
Proof.
  intros [Hn Hb Hr].
  destruct (combine_run this sel1 sel2 com h) as [h' [R [Hnext [_ Hidx]]]].
  rewrite R. cbn [fst]. split.
  - lia.
  - rewrite Hidx. destruct (_ || _); [intros [] | exact Hb].
  - intros r. rewrite Hidx. destruct (_ || _); [constructor | apply Hr].
Qed.

Lemma invariant_exec (c : call) (h : heap) : invariant h -> invariant (exec c h).
Proof.
  destruct c; simpl.
  - apply invariant_add.
  - apply invariant_combine.
  - apply invariant_stringify.
Qed.

Lemma invariant_run (calls : list call) (h : heap) :
  invariant h -> invariant (run calls h).
Proof.
  revert h. induction calls as [| c calls IH]; intros h I; simpl.
  - exact I.
  - apply IH. now apply invariant_exec.
Qed.

Lemma reachable_invariant (h : heap) : reachable h -> invariant h.
Proof. intros [calls ->]. apply invariant_run, invariant_initial. Qed.

(** ** The claims about the builder *)

Lemma highest_app (l : list nat) (k : nat) :
  highest (l ++ [k]) = Nat.max (highest l) k.
Proof.
  induction l as [| x l IH]; simpl.
  - lia.
  - rewrite IH. lia.
Qed.

Lemma guard_order (c : category) (l : list nat) :
  c <> Element ->
  rank c < highest l ->
  (c = Id -> ~ In (rank Id) l) ->
  guard c l = Some OrderError.
Proof.
  intros NE Hlt Hid.
  assert (E : existsb (Nat.ltb (rank c)) l = true).
  { rewrite existsb_ltb_highest. now apply Nat.ltb_lt. }
  destruct c; try congruence; simpl in *; rewrite E; try reflexivity.
  destruct (array_includes l 2) eqn:I; [| reflexivity].
  apply array_includes_In in I. now destruct (Hid eq_refl).
Qed.

(** C1 (as amended).  For [id], [class], [attr], [pseudoClass] and
    [pseudoElement]: when the receiver records a rank strictly above the
    rank of the fragment being added (and, for [id], records no id yet, that
    test coming first), the method throws the order error, having replaced
    the receiver's [index] by an empty array and nothing else. *)
Theorem order_violation_throws (c : category) (this : ref) (value : jsstring) (h : heap) :
  c <> Element ->
  rank c < highest (index (objs h this)) ->
  (c = Id -> ~ In (rank Id) (index (objs h this))) ->
  add c this value h = (cleared this h, Throw OrderError).
Proof.
  intros NE Hlt Hid. apply add_throws. now apply guard_order.
Qed.

(** [builder.class('main').id('top')]: the id after a class throws the order
    error. *)
Lemma order_violation_throws_witness :
  let h := run [Add Class the_builder (utf16 "main")] initial in
  index (objs h the_builder) = [3]
  /\ add Id the_builder (utf16 "top") h = (cleared the_builder h, Throw OrderError).
Proof.
  split; [reflexivity |].
  apply (order_violation_throws Id the_builder (utf16 "top")
           (run [Add Class the_builder (utf16 "main")] initial)).
  - discriminate.
  - vm_compute. lia.
  - intros _. vm_compute. intros [H | []]. discriminate H.
Defined.

(** C1 as stated fails.  After [builder.class('main')] the receiver records
    rank 3, and [element('div')], of rank 1, returns a new object instead of
    throwing.  After [builder.id('a').class('b')] the highest recorded rank
    is 3, and [id('c')], of rank 2, throws the duplicate error, not the
    order error. *)
Lemma order_violation_counterexample :
  (rank Element < highest (index (objs (run [Add Class the_builder (utf16 "main")] initial) the_builder))
   /\ snd (add Element the_builder (utf16 "div")
             (run [Add Class the_builder (utf16 "main")] initial)) = Normal 1)
  /\ (rank Id < highest (index (objs (run [Add Id the_builder (utf16 "a");
                                           Add Class the_builder (utf16 "b")] initial) the_builder))
      /\ snd (add Id the_builder (utf16 "c")
                (run [Add Id the_builder (utf16 "a"); Add Class the_builder (utf16 "b")] initial))
         = Throw DuplicateError).
Proof.
  repeat split; try reflexivity; vm_compute; lia.
Qed.




(** A chain of methods other than [element] that has not thrown returns its
    receiver, which records the rank of each fragment added, in order, after
    what it recorded before. *)
Lemma add_chain_records (this : ref) (fragments : list (category * jsstring)) :
  Forall (fun f => fst f <> Element) fragments ->
  forall h h' r,
    add_chain this fragments h = (h', Normal r) ->
    r = this
    /\ objs h' this =
         {| result := result (objs h this)
                      ++ concat (map (fun f => render (fst f) (snd f)) fragments);
            index := index (objs h this) ++ map (fun f => rank (fst f)) fragments |}.
Proof.
  induction 1 as [| [c v] fragments NE _ IH]; intros h h' r R.
  - injection R as <- <-. split; [reflexivity |].
    simpl. rewrite !app_nil_r. now destruct (objs h this).
  - cbn [add_chain] in R. cbn [fst] in NE.
    destruct (guard c (index (objs h this))) as [e |] eqn:G.
    + rewrite (bind_throw _ _ _ _ _ (add_throws c this v h e G)) in R. discriminate R.
    + destruct (add_returns c this v h NE G) as [h1 [R1 [H1 _]]].
      rewrite (bind_normal _ _ _ _ _ R1) in R.
      destruct (IH h1 h' r R) as [-> H2]. split; [reflexivity |].
      rewrite H2, H1. cbn [added result index map concat fst snd].
      now rewrite <- !app_assoc.
Qed.




(** One more link of a chain of calls on [r]: the guard passes on what [r]
    is known to denote. *)
Ltac chain_step c r v h H h' R H' :=
  let S := fresh "S" in
  destruct (add_returns c r v h ltac:(discriminate) ltac:(rewrite H; reflexivity))
    as [h' [R [H' S]]];
  rewrite H in H'.

Lemma full_chain_run (this : ref) (tag idv cls att pc pe : jsstring) (h : heap) :
  ~ In 1 (index (objs h this)) ->
  snd (full_chain this tag idv cls att pc pe h) =
  Normal (tag ++ utf16 "#" ++ idv ++ utf16 "." ++ cls ++ utf16 "[" ++ att ++ utf16 "]"
              ++ utf16 ":" ++ pc ++ utf16 "::" ++ pe).
Proof.
  intros Hno.
  assert (G : guard Element (index (objs h this)) = None).
  { simpl. destruct (array_includes _ 1) eqn:I; [| reflexivity].
    apply array_includes_In in I. contradiction. }
  destruct (element_returns this tag h G) as [h1 [R1 [H1 _]]].
  set (r := next h) in *.
  chain_step Id r idv h1 H1 h2 R2 H2.
  chain_step Class r cls h2 H2 h3 R3 H3.
  chain_step Attribute r att h3 H3 h4 R4 H4.
  chain_step PseudoClass r pc h4 H4 h5 R5 H5.
  chain_step PseudoElement r pe h5 H5 h6 R6 H6.
  destruct (stringify_run r h6) as [h7 [R7 _]].
  unfold full_chain. simpl in R2, R3, R4, R5, R6.
  rewrite (bind_normal _ _ _ _ _ R1), (bind_normal _ _ _ _ _ R2),
    (bind_normal _ _ _ _ _ R3), (bind_normal _ _ _ _ _ R4),
    (bind_normal _ _ _ _ _ R5), (bind_normal _ _ _ _ _ R6), R7.
  cbn [snd]. rewrite H6. unfold added, render. cbn [result]. f_equal.
  rewrite <- !app_assoc. reflexivity.
Qed.

(** C3.  For all strings [tag], [i], [c], [a], [pc] and [pe], the chain
    [element(tag).id(i).class(c).attr(a).pseudoClass(pc).pseudoElement(pe).stringify()]
    returns [tag#i.c[a]:pc::pe]: on every receiver that records no element,
    and so on the builder itself in every reachable store. *)
Theorem full_chain_stringifies (tag idv cls att pc pe : jsstring) (h : heap) :
  (forall this,
      ~ In 1 (index (objs h this)) ->
      snd (full_chain this tag idv cls att pc pe h) =
      Normal (tag ++ utf16 "#" ++ idv ++ utf16 "." ++ cls ++ utf16 "[" ++ att ++ utf16 "]"
                  ++ utf16 ":" ++ pc ++ utf16 "::" ++ pe))
  /\ (reachable h ->
      snd (full_chain the_builder tag idv cls att pc pe h) =
      Normal (tag ++ utf16 "#" ++ idv ++ utf16 "." ++ cls ++ utf16 "[" ++ att ++ utf16 "]"
                  ++ utf16 ":" ++ pc ++ utf16 "::" ++ pe)).
Proof.
  split.
  - intros this. apply full_chain_run.
  - intros Hr. apply full_chain_run.
    apply reachable_invariant in Hr. apply (inv_builder h Hr).
Qed.

(** The chain on the builder in the initial store, and on the builder after
    [builder.class('stale')], whose [result] and [index] the chain does not
    read. *)
Lemma full_chain_stringifies_witness :
  snd (full_chain the_builder (utf16 "div") (utf16 "main") (utf16 "container")
         (utf16 "href") (utf16 "hover") (utf16 "after") initial)
  = Normal (utf16 "div#main.container[href]:hover::after")
  /\ snd (full_chain the_builder (utf16 "div") (utf16 "main") (utf16 "container")
            (utf16 "href") (utf16 "hover") (utf16 "after")
            (run [Add Class the_builder (utf16 "stale")] initial))
     = Normal (utf16 "div#main.container[href]:hover::after").
Proof.
  split.
  - apply (proj1 (full_chain_stringifies (utf16 "div") (utf16 "main") (utf16 "container")
                    (utf16 "href") (utf16 "hover") (utf16 "after") initial) the_builder).
    simpl. intros [].
  - apply (proj2 (full_chain_stringifies (utf16 "div") (utf16 "main") (utf16 "container")
                    (utf16 "href") (utf16 "hover") (utf16 "after")
                    (run [Add Class the_builder (utf16 "stale")] initial))).
    exists [Add Class the_builder (utf16 "stale")]. reflexivity.
Defined.

(** C4.  [stringify()] returns the receiver's [result] and leaves the
    receiver with an empty [result] and an empty [index], every other object
    as it was; a second [stringify()] right after returns the empty
    string. *)
Theorem stringify_destructive_read (this : ref) (h : heap) :
  snd (stringify this h) = Normal (result (objs h this))
  /\ objs (fst (stringify this h)) this = {| result := []; index := [] |}
  /\ same_except this h (fst (stringify this h))
  /\ snd (stringify this (fst (stringify this h))) = Normal []
  /\ snd ((_ <- stringify this ;; stringify this) h) = Normal [].
Proof.
  destruct (stringify_run this h) as [h1 [R1 [H1 S1]]].
  destruct (stringify_run this h1) as [h2 [R2 _]].
  rewrite (bind_normal _ _ _ _ _ R1), R1. cbn [fst snd].
  rewrite R2, H1. cbn [snd result].
  repeat split; try assumption; apply S1.
Qed.

(** C5.  Whenever a fragment-adding method throws, of either error, the store
    it leaves is the one it started from with the receiver's [index]
    replaced by an empty array: the receiver's [result] is as before, every
    other object is untouched, and the receiver's [index], which was not
    empty, now is. *)
Theorem throw_clears_index_only (c : category) (this : ref) (value : jsstring)
    (h h' : heap) (e : error) :
  add c this value h = (h', Throw e) ->
  index (objs h' this) = []
  /\ result (objs h' this) = result (objs h this)
  /\ same_except this h h'
  /\ index (objs h this) <> []
  /\ objs h' this <> objs h this.
Proof.
  intros R. destruct (add_throw_inv c this value h h' e R) as [G ->].
  assert (NE : index (objs h this) <> []).
  { intros E. rewrite E, guard_nil in G. discriminate G. }
  unfold cleared. rewrite objs_update_same. cbn [result index].
  repeat split.
  - intros r D. now apply objs_update_other.
  - exact NE.
  - intros E. apply NE. now rewrite <- E.
Qed.

(** [builder.id('a').id('b')]: the second [id] throws the duplicate error and
    leaves [#a] in [result] with an empty [index]. *)
Lemma throw_clears_index_only_witness :
  let h := run [Add Id the_builder (utf16 "a")] initial in
  objs h the_builder = {| result := utf16 "#a"; index := [2] |}
  /\ snd (add Id the_builder (utf16 "b") h) = Throw DuplicateError
  /\ objs (fst (add Id the_builder (utf16 "b") h)) the_builder
     = {| result := utf16 "#a"; index := [] |}.
Proof.
  pose proof (throw_clears_index_only Id the_builder (utf16 "b")
                (run [Add Id the_builder (utf16 "a")] initial)
                (fst (add Id the_builder (utf16 "b")
                        (run [Add Id the_builder (utf16 "a")] initial)))
                DuplicateError eq_refl) as [Hi [Hr _]].
  cbv zeta. split; [reflexivity | split; [reflexivity |]].
  revert Hi Hr.
  match goal with
  | |- _ -> _ -> ?b = _ => generalize b
  end.
  intros [res idx]. cbn [result index]. intros -> ->. reflexivity.
Defined.

(** C6.  [combine(sel1, com, sel2)] never throws and returns its receiver;
    [combine(sel1, com, sel2).stringify()] returns what the expression
    [sel1.stringify() + ' ' + com + ' ' + sel2.stringify()] returns in the
    same store, for every string [com]: the [result] of [sel1], a space,
    [com], a space, and the [result] of [sel2] (the empty string when [sel2]
    is the object [sel1], which the first [stringify] has emptied). *)
Theorem combine_stringify (this sel1 sel2 : ref) (com : jsstring) (h : heap) :
  snd (combine this sel1 com sel2 h) = Normal this
  /\ snd ((r <- combine this sel1 com sel2 ;; stringify r) h)
     = snd ((a <- stringify sel1 ;; b <- stringify sel2 ;;
             ret (a ++ utf16 " " ++ com ++ utf16 " " ++ b)) h)
  /\ snd ((r <- combine this sel1 com sel2 ;; stringify r) h)
     = Normal (result (objs h sel1) ++ utf16 " " ++ com ++ utf16 " "
               ++ (if Nat.eqb sel2 sel1 then [] else result (objs h sel2))).
Proof.
  destruct (combine_run this sel1 sel2 com h) as [h1 [R1 [_ [H1 _]]]].
  destruct (stringify_run this h1) as [h2 [R2 _]].
  rewrite (bind_normal _ _ _ _ _ R1), R1, R2, H1. cbn [snd].
  repeat split.
  unfold stringify. autorewrite with js_step. cbn [snd objs update].
  destruct (Nat.eqb sel2 sel1); reflexivity.
Qed.

(** ** The claims about the string tasks *)

Import StringsTasks StringsSpec.

Lemma strict_eqb_eq (s t : jsstring) : strict_eqb s t = true <-> s = t.
Proof.
  unfold strict_eqb. destruct (jsstring_eq_dec s t) as [E | D]; split; intros H;
    try assumption; try reflexivity; try discriminate H. contradiction.
Qed.

Lemma includes_unit (s : jsstring) (c : code_unit) :
  includes s [c] = existsb (N.eqb c) s.
Proof.
  induction s as [| y s IH]; simpl.
  - reflexivity.
  - rewrite IH. replace (startsWith s []) with true by now destruct s.
    now rewrite andb_true_r.
Qed.

Lemma letters_ascii : forallb (fun x => (x <? 128)%N) letters = true.
Proof. vm_compute. reflexivity. Qed.

Lemma not_in_letters (c : code_unit) : (128 <= c)%N -> includes letters [c] = false.
Proof.
  intros Hc. rewrite includes_unit.
  destruct (existsb (N.eqb c) letters) eqn:E; [| reflexivity].
  apply existsb_exists in E. destruct E as [x [Hx E]].
  apply N.eqb_eq in E. subst x.
  pose proof letters_ascii as A. rewrite forallb_forall in A.
  specialize (A c Hx). apply N.ltb_lt in A. lia.
Qed.

(** Below 128 the callback is checked on each code unit in turn. *)
Lemma encodeItem_ascii_checked :
  forallb (fun n => strict_eqb (encodeItem [N.of_nat n]) [rot13 (N.of_nat n)])
    (seq 0 128) = true.
Proof. vm_compute. reflexivity. Qed.

Lemma encodeItem_rot13 (c : code_unit) : encodeItem [c] = [rot13 c].
Proof.
  destruct (N.lt_ge_cases c 128) as [Hlt | Hge].
  - pose proof encodeItem_ascii_checked as A. rewrite forallb_forall in A.
    assert (In (N.to_nat c) (seq 0 128)) as Hin by (apply in_seq; lia).
    specialize (A (N.to_nat c) Hin). rewrite N2Nat.id in A.
    now apply strict_eqb_eq.
  - unfold encodeItem. rewrite (not_in_letters c Hge).
    unfold rot13.
    destruct (N.leb_spec 65 c), (N.leb_spec c 77), (N.leb_spec 97 c), (N.leb_spec c 109),
      (N.leb_spec 78 c), (N.leb_spec c 90), (N.leb_spec 110 c), (N.leb_spec c 122);
      simpl; try reflexivity; lia.
Qed.

(** [encodeToRot13] is ROT13 code unit by code unit. *)
Lemma encodeToRot13_map (str : jsstring) : encodeToRot13 str = map rot13 str.
Proof.
  unfold encodeToRot13, join_empty, split_empty.
  induction str as [| c str IH]; simpl.
  - reflexivity.
  - rewrite encodeItem_rot13, IH. reflexivity.
Qed.

Lemma rot13_involutive (c : code_unit) : rot13 (rot13 c) = c.
Proof.
  unfold rot13.
  destruct (N.leb_spec 65 c), (N.leb_spec c 77), (N.leb_spec 97 c), (N.leb_spec c 109),
    (N.leb_spec 78 c), (N.leb_spec c 90), (N.leb_spec 110 c), (N.leb_spec c 122);
    cbn [andb orb]; try lia.
  all: repeat match goal with
         | |- context [N.leb ?a ?b] => destruct (N.leb_spec a b)
         end; cbn [andb orb]; lia.
Qed.

Lemma rot13_not_letter (c : code_unit) : is_ascii_letter c = false -> rot13 c = c.
Proof.
  unfold is_ascii_letter, rot13.
  destruct (N.leb_spec 65 c), (N.leb_spec c 77), (N.leb_spec 97 c), (N.leb_spec c 109),
    (N.leb_spec 78 c), (N.leb_spec c 90), (N.leb_spec 110 c), (N.leb_spec c 122);
    cbn [andb orb]; intros Hletter; try reflexivity; try discriminate Hletter; lia.
Qed.

(** C7.  [encodeToRot13] applied twice gives the string back; one
    application keeps the length, and keeps in place every code unit that
    is not an ASCII letter. *)
Theorem encodeToRot13_involution (str : jsstring) :
  encodeToRot13 (encodeToRot13 str) = str
  /\ length (encodeToRot13 str) = length str
  /\ forall i c,
       nth_error str i = Some c ->
       is_ascii_letter c = false ->
       nth_error (encodeToRot13 str) i = Some c.
Proof.
  rewrite !encodeToRot13_map. split; [| split].
  - rewrite map_map. rewrite <- (map_id str) at 2.
    apply map_ext. exact rot13_involutive.
  - apply length_map.
  - intros i c Hi Hc. rewrite nth_error_map, Hi. simpl.
    now rewrite rot13_not_letter.
Qed.

(** ['Hello, World!'] *)
Lemma encodeToRot13_involution_witness :
  encodeToRot13 (utf16 "Hello, World!") = utf16 "Uryyb, Jbeyq!"
  /\ encodeToRot13 (encodeToRot13 (utf16 "Hello, World!")) = utf16 "Hello, World!"
  /\ nth_error (encodeToRot13 (utf16 "Hello, World!")) 5 = Some 44%N.
Proof.
  destruct (encodeToRot13_involution (utf16 "Hello, World!")) as [H2 [_ Hk]].
  split; [reflexivity | split; [exact H2 |]].
  apply Hk; reflexivity.
Defined.

(** *** getCardId *)

Lemma indexOf_from_absent (a : list jsstring) (v : jsstring) (i : Z) :
  ~ In v a -> indexOf_from a v i = (-1)%Z.
Proof.
  revert i. induction a as [| x a IH]; intros i Hn; simpl.
  - reflexivity.
  - destruct (strict_eqb x v) eqn:E.
    + apply strict_eqb_eq in E. subst x. destruct Hn. now left.
    + apply IH. intros Hin. apply Hn. now right.
Qed.

Lemma indexOf_from_position (a : list jsstring) (v : jsstring) (n : nat) (i : Z) :
  NoDup a ->
  nth_error a n = Some v ->
  indexOf_from a v i = (i + Z.of_nat n)%Z.
Proof.
  revert n i. induction a as [| x a IH]; intros n i Hnd Hn.
  - destruct n; discriminate Hn.
  - inversion Hnd as [| ? ? Hx Ha]; subst. destruct n as [| n]; simpl in *.
    + injection Hn as ->.
      replace (strict_eqb v v) with true by (symmetry; now apply strict_eqb_eq).
      lia.
    + destruct (strict_eqb x v) eqn:E.
      * apply strict_eqb_eq in E. subst x.
        destruct Hx. eapply nth_error_In, Hn.
      * rewrite (IH n (i + 1)%Z Ha Hn). lia.
Qed.

Lemma mass_NoDup : NoDup mass.
Proof.
  replace mass with (nodup jsstring_eq_dec mass) by (vm_compute; reflexivity).
  apply NoDup_nodup.
Qed.

Lemma mass_is_deck : mass = deck.
Proof. vm_compute. reflexivity. Qed.

Lemma deck_position (suit rank : nat) :
  suit < 4 -> rank < 13 -> nth_error deck (13 * suit + rank) = Some (card suit rank).
Proof.
  intros Hs Hr.
  do 4 (destruct suit as [| suit]; [do 13 (destruct rank as [| rank]; [reflexivity |]); lia |]).
  lia.
Qed.

(** C8.  The array of [getCardId] is the deck of 52 cards, suit after suit
    (clubs, diamonds, hearts, spades) and rank after rank in each suit;
    [getCardId] maps each card of it to its zero-based position, 13 times the
    position of the suit plus the position of the rank, so ['A♣'] to 0 and
    ['K♠'] to 51; and it returns -1 on every string that is no card of the
    deck, such as ['Z♣']. *)
Theorem getCardId_positions :
  (mass = deck /\ length mass = 52)
  /\ (forall n v, nth_error mass n = Some v -> getCardId v = Z.of_nat n)
  /\ (forall suit rank, suit < 4 -> rank < 13 ->
        getCardId (card suit rank) = Z.of_nat (13 * suit + rank))
  /\ (forall v, ~ In v mass -> getCardId v = (-1)%Z)
  /\ getCardId (utf16 "A♣") = 0%Z
  /\ getCardId (utf16 "K♠") = 51%Z
  /\ getCardId (utf16 "Z♣") = (-1)%Z.
Proof.
  assert (P : forall n v, nth_error mass n = Some v -> getCardId v = Z.of_nat n).
  { intros n v Hn. unfold getCardId, indexOf.
    now rewrite (indexOf_from_position mass v n 0 mass_NoDup Hn). }
  split; [split; [exact mass_is_deck | reflexivity] |].
  split; [exact P |].
  split; [| split; [| repeat split; reflexivity]].
  - intros suit rank Hs Hr. apply P. rewrite mass_is_deck. now apply deck_position.
  - intros v Hn. unfold getCardId, indexOf. now apply indexOf_from_absent.
Qed.

(** The queen of spades, and a string that is no card. *)
Lemma getCardId_positions_witness :
  getCardId (utf16 "Q♠") = 50%Z /\ getCardId (utf16 "11♣") = (-1)%Z.
Proof.
  destruct getCardId_positions as [_ [_ [Hcard [Habsent _]]]].
  split.
  - apply (Hcard 3 11); lia.
  - apply Habsent. vm_compute.
    intros H. repeat (destruct H as [H | H]; [discriminate H |]). exact H.
Defined.

(** *** getRectangleString *)

Lemma for_from_append (ch : code_unit) (n : nat) (i : Z) (row : jsstring) :
  for_from n i (fun _ resultRow => resultRow ++ [ch]) row = row ++ repeat ch n.
Proof.
  revert i row. induction n as [| n IH]; intros i row; simpl.
  - now rewrite app_nil_r.
  - rewrite IH, <- app_assoc. reflexivity.
Qed.

(** The rows after the first: [m] middle rows, then the bottom row when the
    counter reaches [height - 1]. *)
Lemma for_from_rows (width height : Z) (body : Z -> jsstring -> jsstring) :
  (forall i result, i <> 0%Z -> i <> (height - 1)%Z -> body i result = result ++ middle_row width) ->
  (forall result, (height - 1)%Z <> 0%Z -> body (height - 1)%Z result = result ++ bottom_row width) ->
  forall (m : nat) (i : Z) (result : jsstring),
    (0 < i)%Z ->
    (i + Z.of_nat m = height - 1)%Z ->
    for_from (S m) i body result =
    result ++ concat (repeat (middle_row width) m) ++ bottom_row width.
Proof.
  intros Hmid Hbot. induction m as [| m IH]; intros i result Hi Hm.
  - replace i with (height - 1)%Z by lia. simpl. apply Hbot. lia.
  - change (for_from (S (S m)) i body result)
      with (for_from (S m) (i + 1)%Z body (body i result)).
    rewrite IH by lia. rewrite Hmid by lia.
    cbn [repeat concat]. now rewrite <- !app_assoc.
Qed.

(** For every width, and every height of at least 2: a top row, [height - 2]
    middle rows and a bottom row, each ended by a newline. *)
Lemma getRectangleString_box (width height : Z) :
  (2 <= height)%Z ->
  getRectangleString width height =
  top_row width ++ concat (repeat (middle_row width) (Z.to_nat (height - 2)))
    ++ bottom_row width.
Proof.
  intros Hh. unfold getRectangleString, for_lt.
  replace (Z.to_nat height) with (S (S (Z.to_nat (height - 2)))) by lia.
  match goal with
  | |- for_from _ _ ?b _ = _ => set (body := b)
  end.
  change (for_from (S (S (Z.to_nat (height - 2)))) 0%Z body [])
    with (for_from (S (Z.to_nat (height - 2))) 1%Z body (body 0%Z [])).
  rewrite (for_from_rows width height body).
  - unfold body. simpl (0 =? 0)%Z. cbv iota. unfold for_lt.
    change (utf16 "─") with [9472%N]. rewrite for_from_append.
    unfold top_row. simpl. now rewrite <- !app_assoc.
  - intros i result H0 H1. unfold body.
    apply Z.eqb_neq in H0, H1. rewrite H0, H1. unfold for_lt.
    change (utf16 " ") with [32%N]. rewrite for_from_append.
    unfold middle_row. now rewrite <- !app_assoc.
  - intros result H0. unfold body.
    apply Z.eqb_neq in H0. rewrite H0, Z.eqb_refl. unfold for_lt.
    change (utf16 "─") with [9472%N]. rewrite for_from_append.
    unfold bottom_row. now rewrite <- !app_assoc.
  - lia.
  - lia.
Qed.

(** C9.  [getRectangleString(4, 3)] is the three rows [┌──┐], [│  │] and
    [└──┘], each of four characters and each, the last included, followed by
    a newline. *)
Theorem getRectangleString_4_3 :
  getRectangleString 4 3 =
  (utf16 "┌──┐" ++ LF) ++ (utf16 "│  │" ++ LF) ++ (utf16 "└──┘" ++ LF)
  /\ map (@length code_unit) [utf16 "┌──┐"; utf16 "│  │"; utf16 "└──┘"] = [4; 4; 4].
Proof.
  split; [| reflexivity].
  rewrite getRectangleString_box by lia.
  reflexivity.
Qed.

(** *** isString *)

(** C10.  [isString] returns [true] exactly on a primitive string and on an
    object that is an instance of [String], such as [new String('x')]; it
    returns [false] on every other value, [null], [undefined] and every
    number among them. *)
Theorem isString_exactly (v : value) :
  (isString v = true <-> is_string_value v)
  /\ (forall s, isString (VString s) = true /\ isString (new_String s) = true)
  /\ isString VNull = false
  /\ isString VUndefined = false
  /\ (forall n, isString (VNumber n) = false).
Proof.
  split; [| repeat split].
  unfold is_string_value. split.
  - intros H. destruct v as [| | b | n | n | n | s | callable chain];
      try discriminate H.
    + left. now exists s.
    + right. exists callable, chain. split; [reflexivity |].
      destruct callable; cbn in H; apply existsb_exists in H;
        destruct H as [p [Hp Hs]]; destruct p; try discriminate Hs; exact Hp.
  - intros [[s ->] | [callable [chain [-> Hin]]]].
    + reflexivity.
    + assert (E : existsb is_StringPrototype chain = true).
      { apply existsb_exists. exists StringPrototype. now split. }
      destruct callable; exact E.
Qed.

(** ** More of the string tasks *)

(** *** slice: extractNameFromTemplate, unbracketTag, getFirstChar *)

Lemma slice_range (s : jsstring) (start end_ : Z) :
  (0 <= start)%Z -> (0 <= end_)%Z ->
  slice s start end_ =
  firstn (Z.to_nat (Z.min end_ (Z.of_nat (length s)) - Z.min start (Z.of_nat (length s))))
    (skipn (Z.to_nat (Z.min start (Z.of_nat (length s)))) s).
Proof.
  intros Hs He. unfold slice.
  replace (start <? 0)%Z with false by (symmetry; apply Z.ltb_ge; lia).
  replace (end_ <? 0)%Z with false by (symmetry; apply Z.ltb_ge; lia).
  reflexivity.
Qed.

(** Cutting [a] at the front and [b] at the back. *)
Lemma slice_middle (a s b : jsstring) :
  slice (a ++ s ++ b) (Z.of_nat (length a))
    (Z.of_nat (length (a ++ s ++ b)) - Z.of_nat (length b)) = s.
Proof.
  rewrite slice_range by (rewrite ?length_app; lia).
  rewrite !length_app.
  replace (Z.to_nat (Z.min (Z.of_nat (length a))
                       (Z.of_nat (length a + (length s + length b)))))
    with (length a + 0) by lia.
  rewrite skipn_app, skipn_all2 by lia. cbn [app].
  replace (length a + 0 - length a) with 0 by lia. cbn [skipn].
  match goal with
  | |- firstn ?n _ = _ => replace n with (length s + 0) by lia
  end.
  rewrite firstn_app_2. cbn [firstn]. apply app_nil_r.
Qed.

(** A range that ends where it starts, or before, is empty. *)
Lemma slice_empty (s : jsstring) (start end_ : Z) :
  (0 <= start)%Z ->
  (end_ <= start)%Z ->
  (end_ < 0 -> Z.of_nat (length s) + end_ <= start)%Z ->
  slice s start end_ = [].
Proof.
  intros Hs He Hneg. unfold slice. cbv zeta.
  replace (start <? 0)%Z with false by (symmetry; apply Z.ltb_ge; lia).
  match goal with
  | |- firstn ?n _ = _ => replace n with 0; [reflexivity |]
  end.
  destruct (end_ <? 0)%Z eqn:E.
  - apply Z.ltb_lt in E. specialize (Hneg E). lia.
  - apply Z.ltb_ge in E. lia.
Qed.

(** X1.  [extractNameFromTemplate] undoes [getStringFromTemplate]: from
    ['Hello, ' + first + ' ' + last + '!'] it gives [first + ' ' + last]
    back, whatever the two strings hold; and on every string of at most 8
    code units, the empty string included, it returns the empty string. *)
Theorem extractNameFromTemplate_inverse :
  (forall firstName lastName,
      extractNameFromTemplate (getStringFromTemplate firstName lastName)
      = firstName ++ utf16 " " ++ lastName)
  /\ (forall value, length value <= 8 -> extractNameFromTemplate value = []).
Proof.
  split.
  - intros firstName lastName. unfold extractNameFromTemplate, getStringFromTemplate.
    change 7%Z with (Z.of_nat (length (utf16 "Hello, "))).
    change 1%Z with (Z.of_nat (length (utf16 "!"))).
    replace (utf16 "Hello, " ++ firstName ++ utf16 " " ++ lastName ++ utf16 "!")
      with (utf16 "Hello, " ++ (firstName ++ utf16 " " ++ lastName) ++ utf16 "!")
      by now rewrite <- !app_assoc.
    apply slice_middle.
  - intros value Hlen. unfold extractNameFromTemplate. apply slice_empty; lia.
Qed.

(** ['Hello, John Doe!'], and a string too short to hold a name. *)
Lemma extractNameFromTemplate_inverse_witness :
  extractNameFromTemplate (utf16 "Hello, John Doe!") = utf16 "John Doe"
  /\ extractNameFromTemplate (utf16 "Hello, !") = [].
Proof.
  split.
  - apply (proj1 extractNameFromTemplate_inverse (utf16 "John") (utf16 "Doe")).
  - apply (proj2 extractNameFromTemplate_inverse (utf16 "Hello, !")). simpl. lia.
Defined.

(** X2.  [unbracketTag] removes the first and the last code unit, whatever
    they are: it undoes the bracketing of any string, and on a string of at
    most two code units it returns the empty string. *)
Theorem unbracketTag_inverse :
  (forall (opening closing : code_unit) (str : jsstring),
      unbracketTag ([opening] ++ str ++ [closing]) = str)
  /\ (forall str, unbracketTag (utf16 "<" ++ str ++ utf16 ">") = str)
  /\ (forall str, length str <= 2 -> unbracketTag str = []).
Proof.
  assert (P : forall (opening closing : code_unit) (str : jsstring),
             unbracketTag ([opening] ++ str ++ [closing]) = str).
  { intros opening closing str. unfold unbracketTag.
    change 1%Z with (Z.of_nat (length [opening])) at 1.
    change 1%Z with (Z.of_nat (length [closing])).
    apply slice_middle. }
  split; [exact P | split].
  - intros str. apply P.
  - intros str Hlen. unfold unbracketTag. apply slice_empty; lia.
Qed.

(** ['<div>'] and ['<>']. *)
Lemma unbracketTag_inverse_witness :
  unbracketTag (utf16 "<div>") = utf16 "div" /\ unbracketTag (utf16 "<>") = [].
Proof.
  split.
  - apply (proj1 (proj2 unbracketTag_inverse) (utf16 "div")).
  - apply (proj2 (proj2 unbracketTag_inverse) (utf16 "<>")). simpl. lia.
Defined.

(** *** repeatString *)

Lemma String_repeat_returns (max_string_length : Z) (s : jsstring) (count : Z) :
  (0 <= count)%Z ->
  (Z.of_nat (length s) * count <= max_string_length)%Z ->
  String_repeat max_string_length s count = Returns (concat (repeat s (Z.to_nat count))).
Proof.
  intros Hc Hm. unfold String_repeat.
  replace (count <? 0)%Z with false by (symmetry; apply Z.ltb_ge; lia).
  now replace (max_string_length <? Z.of_nat (length s) * count)%Z
    with false by (symmetry; apply Z.ltb_ge; lia).
Qed.

Lemma length_concat_repeat (s : jsstring) (n : nat) :
  length (concat (repeat s n)) = n * length s.
Proof.
  induction n as [| n IH]; simpl.
  - reflexivity.
  - now rewrite length_app, IH.
Qed.

(** X3.  With [max_string_length] the longest string the engine builds:
    [repeatString] throws a [RangeError] on every negative count, and on
    every count that is not negative and would make the result longer than
    [max_string_length]; on every other count it returns.  On counts [m] and
    [n] that are not negative, with [m + n] times the length of [value]
    within the limit, it returns strings of [m] and [n] times the length of
    [value], and on [m + n] their concatenation; on 0 it returns the empty
    string, and on 1 [value] when [value] is within the limit. *)
Theorem repeatString_counts (max_string_length : Z) (value : jsstring) :
  (0 <= max_string_length)%Z ->
  (forall count, (count < 0)%Z -> repeatString max_string_length value count = RangeError)
  /\ (forall count,
         (0 <= count)%Z ->
         (max_string_length < Z.of_nat (length value) * count)%Z ->
         repeatString max_string_length value count = RangeError)
  /\ (forall count,
         (0 <= count)%Z ->
         (Z.of_nat (length value) * count <= max_string_length)%Z ->
         exists s, repeatString max_string_length value count = Returns s)
  /\ (forall m n,
         (0 <= m)%Z -> (0 <= n)%Z ->
         (Z.of_nat (length value) * (m + n) <= max_string_length)%Z ->
         exists a b,
           repeatString max_string_length value m = Returns a
           /\ repeatString max_string_length value n = Returns b
           /\ repeatString max_string_length value (m + n) = Returns (a ++ b)
           /\ Z.of_nat (length a) = (m * Z.of_nat (length value))%Z)
  /\ repeatString max_string_length value 0 = Returns []
  /\ ((Z.of_nat (length value) <= max_string_length)%Z ->
      repeatString max_string_length value 1 = Returns value).
Proof.
  intros Hmax. split; [| split; [| split; [| split; [| split]]]].
  - intros count Hc. unfold repeatString, String_repeat.
    destruct (Z.ltb_spec count 0); [reflexivity | lia].
  - intros count Hc Hlong. unfold repeatString, String_repeat.
    destruct (Z.ltb_spec count 0); [reflexivity |].
    destruct (Z.ltb_spec max_string_length (Z.of_nat (length value) * count));
      [reflexivity | lia].
  - intros count Hc Hfit. unfold repeatString.
    rewrite String_repeat_returns by assumption. now eexists.
  - intros m n Hm Hn Hfit. unfold repeatString.
    rewrite !String_repeat_returns by nia.
    eexists; eexists. split; [reflexivity | split; [reflexivity | split]].
    + rewrite Z2Nat.inj_add by lia. now rewrite repeat_app, concat_app.
    + rewrite length_concat_repeat. lia.
  - unfold repeatString. rewrite String_repeat_returns by lia. reflexivity.
  - intros Hfit. unfold repeatString. rewrite String_repeat_returns by lia.
    simpl. now rewrite app_nil_r.
Qed.

(** With the limit of V8: ['ab'] twice and three times, a negative count, and
    ['a'] [2^29] times, one string too long. *)
Lemma repeatString_counts_witness :
  repeatString 536870888 (utf16 "ab") (2 + 3) = Returns (utf16 "abab" ++ utf16 "ababab")
  /\ repeatString 536870888 (utf16 "ab") (-1) = RangeError
  /\ repeatString 536870888 (utf16 "a") 536870912 = RangeError.
Proof.
  destruct (repeatString_counts 536870888 (utf16 "ab") ltac:(lia))
    as [Hneg [_ [_ [Hadd _]]]].
  destruct (repeatString_counts 536870888 (utf16 "a") ltac:(lia))
    as [_ [Hlong _]].
  split; [| split].
  - destruct (Hadd 2%Z 3%Z ltac:(lia) ltac:(lia) ltac:(simpl; lia))
      as [a [b [Ha [Hb [Hab _]]]]].
    injection Ha as <-. injection Hb as <-. exact Hab.
  - apply Hneg. lia.
  - apply Hlong; simpl; lia.
Defined.

(** *** removeFirstOccurrences *)

Lemma startsWith_iff (s p : jsstring) :
  startsWith s p = true <-> exists t, s = p ++ t.
Proof.
  revert s. induction p as [| x p IH]; intros s.
  - split; [intros _; now exists s | intros _; now destruct s].
  - destruct s as [| y s]; simpl.
    + split; [discriminate | intros [t E]; discriminate E].
    + rewrite andb_true_iff, N.eqb_eq, IH. split.
      * intros [-> [t ->]]. now exists t.
      * intros [t E]. injection E as -> ->. split; [reflexivity | now exists t].
Qed.

Lemma includes_cons (c : code_unit) (s p : jsstring) :
  includes (c :: s) p = startsWith (c :: s) p || includes s p.
Proof. reflexivity. Qed.

Lemma includes_nil (p : jsstring) : includes [] p = startsWith [] p.
Proof. change (includes [] p) with (startsWith [] p || false). apply orb_false_r. Qed.

Lemma includes_iff (s p : jsstring) :
  includes s p = true <-> exists i, occurs_at s p i.
Proof.
  unfold occurs_at. induction s as [| c s IH].
  - rewrite includes_nil, startsWith_iff. split.
    + intros [t E]. exists 0, [], t. now split.
    + intros [i [before [after [E _]]]].
      destruct before; [| discriminate E]. now exists after.
  - rewrite includes_cons, orb_true_iff, startsWith_iff, IH. split.
    + intros [[t E] | [i [before [after [E L]]]]].
      * exists 0, [], t. now split.
      * exists (S i), (c :: before), after. subst. now split.
    + intros [i [before [after [E L]]]]. destruct before as [| x before].
      * left. now exists after.
      * right. injection E as -> ->. exists (length before), before, after. now split.
Qed.

Lemma String_replace_unfold (s p r : jsstring) :
  String_replace s p r =
  if startsWith s p then r ++ skipn (length p) s
  else match s with
       | [] => []
       | c :: s' => c :: String_replace s' p r
       end.
Proof. destruct s; reflexivity. Qed.

(** [replace] cuts at the first occurrence. *)
Lemma String_replace_first (s p r : jsstring) :
  includes s p = true ->
  exists before after,
    s = before ++ p ++ after
    /\ String_replace s p r = before ++ r ++ after
    /\ forall i, occurs_at s p i -> length before <= i.
Proof.
  induction s as [| c s IH]; intros Hin.
  - rewrite includes_nil in Hin.
    exists [], []. destruct p; [| discriminate Hin].
    split; [reflexivity | split; [simpl; now rewrite app_nil_r | intros; simpl; lia]].
  - destruct (startsWith (c :: s) p) eqn:Hs.
    + pose proof Hs as Hs'. apply startsWith_iff in Hs'. destruct Hs' as [t E].
      exists [], t. split; [exact E | split].
      * rewrite String_replace_unfold, Hs, E.
        now rewrite skipn_app, skipn_all, Nat.sub_diag.
      * intros; simpl; lia.
    + rewrite includes_cons, Hs in Hin. simpl in Hin.
      destruct (IH Hin) as [before [after [E [R Hmin]]]].
      exists (c :: before), after. split; [now rewrite E | split].
      * now rewrite String_replace_unfold, Hs, R.
      * intros i [before' [after' [E' L]]]. destruct before' as [| y before'].
        -- assert (startsWith (c :: s) p = true) as C
             by (apply startsWith_iff; now exists after').
           rewrite Hs in C. discriminate C.
        -- injection E' as -> E'. simpl in L. subst i.
           apply le_n_S, Hmin. exists before', after'. now split.
Qed.

Lemma String_replace_absent (s p r : jsstring) :
  includes s p = false -> String_replace s p r = s.
Proof.
  induction s as [| c s IH]; intros Hin.
  - rewrite includes_nil in Hin. destruct p; [discriminate Hin | reflexivity].
  - rewrite includes_cons in Hin. apply orb_false_iff in Hin. destruct Hin as [Hs Hin].
    now rewrite String_replace_unfold, Hs, IH.
Qed.

(** X4.  [removeFirstOccurrences] returns [str] unchanged when [value] does
    not occur in it; when it does, it cuts out the occurrence that starts
    first and keeps everything before and after it, later occurrences
    included, so the result is shorter by the length of [value]. *)
Theorem removeFirstOccurrences_cut (str value : jsstring) :
  (includes str value = false -> removeFirstOccurrences str value = str)
  /\ (includes str value = true ->
      exists before after,
        str = before ++ value ++ after
        /\ removeFirstOccurrences str value = before ++ after
        /\ (forall i, occurs_at str value i -> length before <= i)
        /\ length (removeFirstOccurrences str value) + length value = length str).
Proof.
  unfold removeFirstOccurrences. split.
  - apply String_replace_absent.
  - intros Hin. destruct (String_replace_first str value [] Hin)
      as [before [after [E [R Hmin]]]].
    exists before, after. repeat split; try assumption.
    rewrite R, E. cbn [app]. rewrite !length_app. lia.
Qed.

(** ['ABABAB'] without its first ['BA'], and a string without ['BA']. *)
Lemma removeFirstOccurrences_cut_witness :
  removeFirstOccurrences (utf16 "ABC") (utf16 "BA") = utf16 "ABC"
  /\ length (removeFirstOccurrences (utf16 "ABABAB") (utf16 "BA")) + 2 = 6.
Proof.
  split.
  - apply (proj1 (removeFirstOccurrences_cut (utf16 "ABC") (utf16 "BA"))). reflexivity.
  - destruct (proj2 (removeFirstOccurrences_cut (utf16 "ABABAB") (utf16 "BA")) eq_refl)
      as [before [after [_ [_ [_ L]]]]]. exact L.
Defined.

(** *** extractEmails *)

Lemma split_unit_cons (c : code_unit) (s : jsstring) (sep : code_unit) :
  exists piece pieces,
    split_unit s sep = piece :: pieces
    /\ split_unit (c :: s) sep =
         if (c =? sep)%N then [] :: piece :: pieces else (c :: piece) :: pieces.
Proof.
  revert c. induction s as [| x s IH]; intros c.
  - exists [], []. simpl. now destruct (c =? sep)%N.
  - destruct (IH x) as [piece [pieces [E R]]].
    cbn [split_unit]. cbn [split_unit] in R. rewrite E in *.
    destruct (x =? sep)%N; eexists; eexists; (split; [reflexivity |]);
      destruct (c =? sep)%N; reflexivity.
Qed.

Lemma join_cons (piece next_piece : jsstring) (pieces : list jsstring) (sep : jsstring) :
  join (piece :: next_piece :: pieces) sep = piece ++ sep ++ join (next_piece :: pieces) sep.
Proof. reflexivity. Qed.

Lemma join_split_unit (s : jsstring) (sep : code_unit) :
  join (split_unit s sep) [sep] = s.
Proof.
  induction s as [| c s IH].
  - reflexivity.
  - destruct (split_unit_cons c s sep) as [piece [pieces [E R]]].
    rewrite R. rewrite E in IH. destruct (N.eqb_spec c sep) as [-> | D].
    + rewrite join_cons, IH. reflexivity.
    + rewrite <- IH. now destruct pieces.
Qed.

Lemma split_unit_pieces (s : jsstring) (sep : code_unit) :
  Forall (fun piece => ~ In sep piece) (split_unit s sep)
  /\ length (split_unit s sep) = S (count_occ N.eq_dec s sep).
Proof.
  induction s as [| c s [IHf IHl]].
  - split; [repeat constructor; intros [] | reflexivity].
  - destruct (split_unit_cons c s sep) as [piece [pieces [E R]]].
    rewrite R. rewrite E in IHf, IHl. cbn [count_occ].
    destruct (N.eqb_spec c sep) as [-> | D].
    + destruct (N.eq_dec sep sep) as [_ | C]; [| contradiction].
      split; [constructor; [intros [] | exact IHf] | simpl in *; lia].
    + destruct (N.eq_dec c sep) as [C | _]; [contradiction |].
      inversion IHf as [| ? ? Hp Hps]; subst.
      split; [constructor; [| exact Hps] | simpl in *; lia].
      intros [C | C]; [now apply D | now apply Hp].
Qed.

Lemma split_unit_piece (piece : jsstring) (sep : code_unit) :
  ~ In sep piece -> split_unit piece sep = [piece].
Proof.
  induction piece as [| c piece IH]; intros Hn.
  - reflexivity.
  - cbn [split_unit]. destruct (N.eqb_spec c sep) as [-> | D].
    + destruct Hn. now left.
    + rewrite IH; [reflexivity |]. intros C. apply Hn. now right.
Qed.

Lemma split_unit_app (piece rest : jsstring) (sep : code_unit) :
  ~ In sep piece ->
  split_unit (piece ++ sep :: rest) sep = piece :: split_unit rest sep.
Proof.
  induction piece as [| c piece IH]; intros Hn.
  - cbn [app split_unit]. now rewrite N.eqb_refl.
  - cbn [app split_unit]. destruct (N.eqb_spec c sep) as [-> | D].
    + destruct Hn. now left.
    + rewrite IH; [reflexivity |]. intros C. apply Hn. now right.
Qed.

Lemma split_unit_join (pieces : list jsstring) (sep : code_unit) :
  pieces <> [] ->
  Forall (fun piece => ~ In sep piece) pieces ->
  split_unit (join pieces [sep]) sep = pieces.
Proof.
  intros Hne Hf. induction Hf as [| piece pieces Hp Hps IH]; [contradiction |].
  destruct pieces as [| next_piece pieces].
  - now apply split_unit_piece.
  - rewrite join_cons. cbn [app]. rewrite split_unit_app by exact Hp.
    f_equal. apply IH. discriminate.
Qed.

(** X5.  [extractEmails] splits at every [;]: joining the pieces with [;]
    gives the string back, no piece holds a [;], there is one piece more
    than there are [;] in the string (so one piece, the empty string, for
    the empty string), and a list of strings without [;] that is not empty
    is what [extractEmails] gives back from its [;]-joined string. *)
Theorem extractEmails_join :
  (forall str,
      join (extractEmails str) (utf16 ";") = str
      /\ Forall (fun piece => ~ In 59%N piece) (extractEmails str)
      /\ length (extractEmails str) = S (count_occ N.eq_dec str 59%N))
  /\ (forall pieces,
         pieces <> [] ->
         Forall (fun piece => ~ In 59%N piece) pieces ->
         extractEmails (join pieces (utf16 ";")) = pieces).
Proof.
  unfold extractEmails. change (utf16 ";") with [59%N]. split.
  - intros str. split; [apply join_split_unit | apply split_unit_pieces].
  - intros pieces. apply split_unit_join.
Qed.

(** Two addresses, and the empty string. *)
Lemma extractEmails_join_witness :
  extractEmails (utf16 "a@b.org;c@d.org") = [utf16 "a@b.org"; utf16 "c@d.org"]
  /\ length (extractEmails []) = 1.
Proof.
  split.
  - apply (proj2 extractEmails_join [utf16 "a@b.org"; utf16 "c@d.org"]).
    + discriminate.
    + repeat constructor; vm_compute;
        intros H; repeat (destruct H as [H | H]; [discriminate H |]); exact H.
  - apply (proj1 extractEmails_join []).
Defined.

(** *** removeLeadingAndTrailingWhitespaces *)

Lemma trimStart_white (l s : jsstring) :
  forallb is_white_space l = true -> trimStart (l ++ s) = trimStart s.
Proof.
  induction l as [| c l IH]; intros Hl; [reflexivity |].
  cbn [forallb] in Hl. apply andb_true_iff in Hl. destruct Hl as [Hc Hl].
  cbn [app trimStart]. rewrite Hc. now apply IH.
Qed.

Lemma trimStart_prefix (s : jsstring) :
  exists l, s = l ++ trimStart s /\ forallb is_white_space l = true.
Proof.
  induction s as [| c s [l [E Hl]]].
  - now exists [].
  - cbn [trimStart]. destruct (is_white_space c) eqn:Hc.
    + exists (c :: l). split; [cbn [app]; now rewrite <- E | cbn [forallb]; now rewrite Hc].
    + now exists [].
Qed.

Lemma trimStart_head (s : jsstring) (c : code_unit) (t : jsstring) :
  trimStart s = c :: t -> is_white_space c = false.
Proof.
  induction s as [| x s IH]; [discriminate |].
  cbn [trimStart]. destruct (is_white_space x) eqn:Hx; [exact IH |].
  intros E. injection E as <- _. exact Hx.
Qed.

Lemma trimStart_fixed (c : code_unit) (t : jsstring) :
  is_white_space c = false -> trimStart (c :: t) = c :: t.
Proof. intros Hc. cbn [trimStart]. now rewrite Hc. Qed.

Lemma trimEnd_white (s r : jsstring) :
  forallb is_white_space r = true -> trimEnd (s ++ r) = trimEnd s.
Proof.
  intros Hr. unfold trimEnd. rewrite rev_app_distr, trimStart_white; [reflexivity |].
  rewrite forallb_forall in *. intros x Hx. apply Hr. now apply in_rev.
Qed.

Lemma trimEnd_fixed (t : jsstring) (c : code_unit) :
  is_white_space c = false -> trimEnd (t ++ [c]) = t ++ [c].
Proof.
  intros Hc. unfold trimEnd. rewrite rev_app_distr. cbn [rev app].
  rewrite trimStart_fixed by exact Hc.
  cbn [rev]. now rewrite rev_involutive.
Qed.

Lemma trimEnd_suffix (s : jsstring) :
  exists r, s = trimEnd s ++ r /\ forallb is_white_space r = true.
Proof.
  destruct (trimStart_prefix (rev s)) as [l [E Hl]].
  exists (rev l). split.
  - unfold trimEnd. rewrite <- rev_app_distr, <- E. now rewrite rev_involutive.
  - rewrite forallb_forall in *. intros x Hx. apply Hl. now apply in_rev.
Qed.

Lemma trimEnd_last (s t : jsstring) (c : code_unit) :
  trimEnd s = t ++ [c] -> is_white_space c = false.
Proof.
  unfold trimEnd. intros E.
  apply (f_equal (@rev code_unit)) in E.
  rewrite rev_involutive, rev_app_distr in E. cbn [rev app] in E.
  exact (trimStart_head _ _ _ E).
Qed.

Lemma trimEnd_keeps_head (s : jsstring) (c : code_unit) (t : jsstring) :
  is_white_space c = false -> exists t', trimEnd (c :: s) = c :: t'.
Proof.
  intros Hc. induction s as [| x s IH] using rev_ind.
  - exists []. now apply (trimEnd_fixed []).
  - destruct (is_white_space x) eqn:Hx.
    + change (c :: s ++ [x]) with ((c :: s) ++ [x]).
      rewrite trimEnd_white by (cbn [forallb]; now rewrite Hx). exact IH.
    + exists (s ++ [x]). change (c :: s ++ [x]) with ((c :: s) ++ [x]).
      now rewrite trimEnd_fixed.
Qed.

(** X6.  [removeLeadingAndTrailingWhitespaces] cuts a string in three: white
    space, the result, white space; the result neither starts nor ends with
    white space; so whatever stands between two runs of white space, and
    neither starts nor ends with white space, is what it returns, the empty
    string for a string of white space only; and it changes nothing when
    applied a second time. *)
Theorem trim_white_space (value : jsstring) :
  (exists l r,
      value = l ++ removeLeadingAndTrailingWhitespaces value ++ r
      /\ forallb is_white_space l = true
      /\ forallb is_white_space r = true)
  /\ (forall c t, removeLeadingAndTrailingWhitespaces value = c :: t ->
                  is_white_space c = false)
  /\ (forall t c, removeLeadingAndTrailingWhitespaces value = t ++ [c] ->
                  is_white_space c = false)
  /\ (forall l m r,
         value = l ++ m ++ r ->
         forallb is_white_space l = true ->
         forallb is_white_space r = true ->
         (forall c t, m = c :: t -> is_white_space c = false) ->
         (forall t c, m = t ++ [c] -> is_white_space c = false) ->
         removeLeadingAndTrailingWhitespaces value = m)
  /\ removeLeadingAndTrailingWhitespaces (removeLeadingAndTrailingWhitespaces value)
     = removeLeadingAndTrailingWhitespaces value.
Proof.
  unfold removeLeadingAndTrailingWhitespaces, trim.
  assert (U : forall l m r,
             forallb is_white_space l = true ->
             forallb is_white_space r = true ->
             (forall c t, m = c :: t -> is_white_space c = false) ->
             (forall t c, m = t ++ [c] -> is_white_space c = false) ->
             trimEnd (trimStart (l ++ m ++ r)) = m).
  { intros l m r Hl Hr Hh Hlast. rewrite trimStart_white by exact Hl.
    destruct m as [| c t].
    - cbn [app]. destruct (trimStart_prefix r) as [l' [E Hl']].
      replace (trimStart r) with (@nil code_unit); [reflexivity |].
      destruct (trimStart r) as [| x t'] eqn:T; [reflexivity |].
      pose proof (trimStart_head _ _ _ T) as Hx.
      rewrite forallb_forall in Hr. rewrite (Hr x) in Hx; [discriminate Hx |].
      rewrite E. apply in_or_app. right. now left.
    - cbn [app]. rewrite trimStart_fixed by (now apply (Hh c t)).
      change (c :: t ++ r) with ((c :: t) ++ r). rewrite trimEnd_white by exact Hr.
      destruct (exists_last (l := c :: t) ltac:(discriminate)) as [t' [x E]].
      rewrite E. apply trimEnd_fixed. now apply (Hlast t' x). }
  assert (Hhead : forall c t, trimEnd (trimStart value) = c :: t -> is_white_space c = false).
  { intros c t E. destruct (trimStart value) as [| x s] eqn:T; [discriminate E |].
    pose proof (trimStart_head _ _ _ T) as Hx.
    destruct (trimEnd_keeps_head s x s Hx) as [t' E']. rewrite E' in E.
    now injection E as <- _. }
  destruct (trimStart_prefix value) as [l [El Hl]].
  destruct (trimEnd_suffix (trimStart value)) as [r [Er Hr]].
  split; [| split; [| split; [| split]]].
  - exists l, r. split; [| split; assumption]. now rewrite <- Er.
  - exact Hhead.
  - intros t c. apply trimEnd_last.
  - intros l' m r' ->. apply U.
  - pose proof (U [] (trimEnd (trimStart value)) [] eq_refl eq_refl Hhead
                  (fun t c => trimEnd_last _ t c)) as I.
    cbn [app] in I. now rewrite app_nil_r in I.
Qed.

(** ['  Abracadabra '], with a tab and a no-break space among the white
    space. *)
Lemma trim_white_space_witness :
  removeLeadingAndTrailingWhitespaces ([32; 9]%N ++ utf16 "Abra cadabra" ++ [160; 10]%N)
  = utf16 "Abra cadabra".
Proof.
  apply (proj1 (proj2 (proj2 (proj2 (trim_white_space
           ([32; 9]%N ++ utf16 "Abra cadabra" ++ [160; 10]%N)))))
           [32; 9]%N (utf16 "Abra cadabra") [160; 10]%N eq_refl eq_refl eq_refl).
  - intros c t E. injection E as <- _. reflexivity.
  - intros t c E.
    change (utf16 "Abra cadabra") with (utf16 "Abra cadabr" ++ [97%N]) in E.
    apply app_inj_tail in E. destruct E as [_ <-]. reflexivity.
Defined.

(** *** getRectangleString, every size *)

Lemma count_occ_concat_repeat (row : jsstring) (n : nat) (c : code_unit) :
  count_occ N.eq_dec (concat (repeat row n)) c = n * count_occ N.eq_dec row c.
Proof.
  induction n as [| n IH]; cbn [repeat concat].
  - reflexivity.
  - rewrite count_occ_app. cbn [Nat.mul]. f_equal. exact IH.
Qed.

Lemma count_occ_fill (fill : code_unit) (n : nat) :
  fill <> 10%N -> count_occ N.eq_dec (repeat fill n) 10%N = 0.
Proof.
  intros D. induction n as [| n IH]; simpl.
  - reflexivity.
  - destruct (N.eq_dec fill 10) as [E | _]; [contradiction | exact IH].
Qed.

(** Each row holds its two ends, the filling and one newline, the last code
    unit of the row. *)
Lemma row_shape (width : Z) :
  (length (top_row width) = Z.to_nat (Z.max width 2 + 1)
   /\ count_occ N.eq_dec (top_row width) 10%N = 1)
  /\ (length (middle_row width) = Z.to_nat (Z.max width 2 + 1)
      /\ count_occ N.eq_dec (middle_row width) 10%N = 1)
  /\ (length (bottom_row width) = Z.to_nat (Z.max width 2 + 1)
      /\ count_occ N.eq_dec (bottom_row width) 10%N = 1).
Proof.
  unfold top_row, middle_row, bottom_row.
  repeat split; rewrite ?length_app, ?count_occ_app, ?repeat_length,
    ?count_occ_fill by discriminate; simpl; lia.
Qed.

(** X7.  [getRectangleString] on every width and height: no row for a height
    of 0 or less; the top row alone for a height of 1; for a height of 2 or
    more the top row, [height - 2] middle rows and the bottom row.  Each row
    is two ends around [width - 2] filling characters (none when [width] is
    less than 2) and ends with a newline, so the string has [height]
    newlines and [height] times [max(width, 2) + 1] code units. *)
Theorem getRectangleString_rows (width height : Z) :
  ((height <= 0)%Z -> getRectangleString width height = [])
  /\ (height = 1%Z -> getRectangleString width height = top_row width)
  /\ ((2 <= height)%Z ->
      getRectangleString width height =
      top_row width ++ concat (repeat (middle_row width) (Z.to_nat (height - 2)))
        ++ bottom_row width)
  /\ ((0 <= height)%Z ->
      count_occ N.eq_dec (getRectangleString width height) 10%N = Z.to_nat height
      /\ Z.of_nat (length (getRectangleString width height))
         = (height * (Z.max width 2 + 1))%Z).
Proof.
  assert (H0 : (height <= 0)%Z -> getRectangleString width height = []).
  { intros Hh. unfold getRectangleString, for_lt.
    now replace (Z.to_nat height) with 0 by lia. }
  assert (H1 : height = 1%Z -> getRectangleString width height = top_row width).
  { intros ->. unfold getRectangleString, for_lt. cbn [Z.to_nat Pos.to_nat Pos.iter_op for_from].
    simpl (0 =? 0)%Z. cbv iota. unfold for_lt.
    change (utf16 "─") with [9472%N]. rewrite for_from_append.
    unfold top_row. cbn [app]. now rewrite <- !app_assoc. }
  destruct (row_shape width) as [[Lt Ct] [[Lm Cm] [Lb Cb]]].
  split; [exact H0 | split; [exact H1 | split; [apply getRectangleString_box |]]].
  intros Hh.
  destruct (Z.eq_dec height 0) as [-> | N0]; [rewrite H0 by lia; split; reflexivity |].
  destruct (Z.eq_dec height 1) as [-> | N1].
  - rewrite H1 by reflexivity. rewrite Lt, Ct. split; [reflexivity | lia].
  - rewrite getRectangleString_box by lia.
    rewrite !count_occ_app, !length_app, count_occ_concat_repeat,
      length_concat_repeat.
    unfold jsstring, code_unit in *. rewrite Lt, Ct, Lm, Cm, Lb, Cb.
    split; [lia | nia].
Qed.

(** A box 4 wide and 3 high, a height of 1, and a width of 1. *)
Lemma getRectangleString_rows_witness :
  length (getRectangleString 4 3) = 15
  /\ getRectangleString 6 1 = utf16 "┌────┐" ++ LF
  /\ getRectangleString 1 2 = utf16 "┌┐" ++ LF ++ utf16 "└┘" ++ LF.
Proof.
  destruct (getRectangleString_rows 4 3) as [_ [_ [_ H43]]].
  destruct (getRectangleString_rows 6 1) as [_ [H61 _]].
  destruct (getRectangleString_rows 1 2) as [_ [_ [H12 _]]].
  split; [| split].
  - destruct (H43 ltac:(lia)) as [_ L]. lia.
  - rewrite H61 by reflexivity. reflexivity.
  - rewrite H12 by lia. reflexivity.
Defined.

(** *** encodeToRot13, letter by letter *)

(** X8.  [encodeToRot13] works code unit by code unit: the encoding of a
    concatenation is the concatenation of the encodings, and a letter at
    some position becomes, at that position, the letter 13 places after it
    or 13 places before it in the alphabet, of the same case, and never
    itself. *)
Theorem encodeToRot13_letters (str : jsstring) :
  (forall tail, encodeToRot13 (str ++ tail) = encodeToRot13 str ++ encodeToRot13 tail)
  /\ (forall i c,
         nth_error str i = Some c ->
         is_ascii_letter c = true ->
         exists c',
           nth_error (encodeToRot13 str) i = Some c'
           /\ is_upper c' = is_upper c
           /\ is_lower c' = is_lower c
           /\ (c' = c + 13 \/ c = c' + 13)%N).
Proof.
  split.
  - intros tail. rewrite !encodeToRot13_map. apply map_app.
  - intros i c Hi Hc. exists (rot13 c). rewrite encodeToRot13_map, nth_error_map, Hi.
    split; [reflexivity |].
    revert Hc. unfold is_ascii_letter, is_upper, is_lower, rot13.
    destruct (N.leb_spec 65 c), (N.leb_spec c 77), (N.leb_spec 97 c), (N.leb_spec c 109),
      (N.leb_spec 78 c), (N.leb_spec c 90), (N.leb_spec 110 c), (N.leb_spec c 122);
      cbn [andb orb]; intros Hc; try discriminate Hc; try lia.
    all: repeat match goal with
           | |- context [N.leb ?a ?b] => destruct (N.leb_spec a b)
           end; cbn [andb orb]; repeat split; try reflexivity; lia.
Qed.

(** ['Why'] followed by ['?']. *)
Lemma encodeToRot13_letters_witness :
  encodeToRot13 (utf16 "Why" ++ utf16 "?") = utf16 "Jul" ++ utf16 "?"
  /\ exists c', nth_error (encodeToRot13 (utf16 "Why")) 0 = Some c' /\ is_upper c' = true.
Proof.
  destruct (encodeToRot13_letters (utf16 "Why")) as [Happ Hlet].
  split.
  - rewrite Happ. reflexivity.
  - destruct (Hlet 0 87%N eq_refl eq_refl) as [c' [Hn [Hu _]]].
    exists c'. split; [exact Hn | exact Hu].
Defined.

(** *** getCardId, back from the position *)

Lemma indexOf_from_found (a : list jsstring) (v : jsstring) (i : Z) :
  indexOf_from a v i <> (-1)%Z ->
  (0 <= i)%Z ->
  (i <= indexOf_from a v i < i + Z.of_nat (length a))%Z
  /\ nth_error a (Z.to_nat (indexOf_from a v i - i)) = Some v.
Proof.
  revert i. induction a as [| x a IH]; intros i Hf Hi; cbn [indexOf_from] in *.
  - contradiction.
  - destruct (strict_eqb x v) eqn:E.
    + apply strict_eqb_eq in E. subst x. rewrite Z.sub_diag. cbn [length].
      split; [lia | reflexivity].
    + destruct (IH (i + 1)%Z Hf ltac:(lia)) as [Hr Hn]. cbn [length]. split; [lia |].
      replace (Z.to_nat (indexOf_from a v (i + 1) - i))
        with (S (Z.to_nat (indexOf_from a v (i + 1) - (i + 1)))) by lia.
      exact Hn.
Qed.

(** X9.  What [getCardId] returns is -1 or a position from 0 to 51, and a
    position it returns holds the card it was asked for: two strings with
    the same position are the same card. *)
Theorem getCardId_inverse (v : jsstring) :
  (getCardId v = (-1)%Z \/ (0 <= getCardId v <= 51)%Z)
  /\ (getCardId v <> (-1)%Z -> nth_error mass (Z.to_nat (getCardId v)) = Some v)
  /\ (forall w, getCardId v <> (-1)%Z -> getCardId w = getCardId v -> w = v).
Proof.
  assert (P : forall u, getCardId u <> (-1)%Z ->
                        (0 <= getCardId u <= 51)%Z
                        /\ nth_error mass (Z.to_nat (getCardId u)) = Some u).
  { intros u Hu. unfold getCardId, indexOf in *.
    destruct (indexOf_from_found mass u 0%Z Hu ltac:(lia)) as [Hr Hn].
    rewrite Z.sub_0_r in Hn. split; [| exact Hn].
    change (length mass) with 52 in Hr. lia. }
  split; [| split].
  - destruct (Z.eq_dec (getCardId v) (-1)) as [E | D]; [now left | right; now apply P].
  - intros D. now apply P.
  - intros w D E. destruct (P v D) as [_ Hv].
    destruct (P w ltac:(congruence)) as [_ Hw]. rewrite E in Hw. congruence.
Qed.

(** The position of the ten of hearts. *)
Lemma getCardId_inverse_witness :
  nth_error mass (Z.to_nat (getCardId (utf16 "10♥"))) = Some (utf16 "10♥").
Proof.
  apply (proj1 (proj2 (getCardId_inverse (utf16 "10♥")))).
  vm_compute. discriminate.
Defined.

(** ** More of the builder *)

(** X10.  In every reachable store [cssSelectorBuilder.element(value)] returns
    normally: it never throws, whatever was called before.  What it returns
    is a new object, which is not the builder, holds [value] as its text and
    records an element; the builder and every other object stay as they
    were. *)
Theorem element_forks (value : jsstring) (h : heap) :
  reachable h ->
  exists h',
    element the_builder value h = (h', Normal (next h))
    /\ next h <> the_builder
    /\ objs h' (next h) = {| result := value; index := [1] |}
    /\ next h' = S (next h)
    /\ forall r, r <> next h -> objs h' r = objs h r.
Proof.
  intros Hr. apply reachable_invariant in Hr. destruct Hr as [Hn Hb _].
  assert (G : guard Element (index (objs h the_builder)) = None).
  { simpl. destruct (array_includes _ 1) eqn:I; [| reflexivity].
    apply array_includes_In in I. contradiction. }
  destruct (element_returns the_builder value h G) as [h' [R [Hnew [Hnext Hold]]]].
  exists h'. repeat split; try assumption. unfold the_builder. lia.
Qed.

(** [builder.element('div')] after [builder.id('main').id('again')], which
    threw and left [#main] in the builder. *)
Lemma element_forks_witness :
  let h := run [Add Id the_builder (utf16 "main"); Add Id the_builder (utf16 "again")] initial in
  snd (element the_builder (utf16 "div") h) = Normal 1
  /\ objs (fst (element the_builder (utf16 "div") h)) 1
     = {| result := utf16 "div"; index := [1] |}.
Proof.
  cbv zeta.
  destruct (element_forks (utf16 "div")
              (run [Add Id the_builder (utf16 "main");
                    Add Id the_builder (utf16 "again")] initial))
    as [h' [R [_ [Hnew _]]]].
  { eexists. reflexivity. }
  rewrite R. cbn [fst snd]. split; [reflexivity | exact Hnew].
Defined.

Lemma combine_frame (this sel1 sel2 : ref) (com : jsstring) (h : heap) (r : ref) :
  r <> this -> r <> sel1 -> r <> sel2 ->
  objs (fst (combine this sel1 com sel2 h)) r = objs h r.
Proof.
  intros D0 D1 D2. unfold combine, stringify. autorewrite with js_step. cbn [fst].
  now rewrite !objs_update_other by assumption.
Qed.

(** X11.  No method reaches beyond the objects it is given.  [id], [class],
    [attr], [pseudoClass] and [pseudoElement] create no object and change
    the receiver only, whether they return or throw, and what they return
    is the receiver itself; [combine] creates no object and leaves every
    object but its receiver and its two arguments as it was. *)
Theorem methods_frame (this : ref) (h : heap) :
  (forall c value,
      c <> Element ->
      same_except this h (fst (add c this value h))
      /\ forall r, snd (add c this value h) = Normal r -> r = this)
  /\ (forall sel1 com sel2,
         next (fst (combine this sel1 com sel2 h)) = next h
         /\ forall r, r <> this -> r <> sel1 -> r <> sel2 ->
                      objs (fst (combine this sel1 com sel2 h)) r = objs h r).
Proof.
  split.
  - intros c value NE.
    destruct (guard c (index (objs h this))) as [e |] eqn:G.
    + rewrite (add_throws c this value h e G). cbn [fst snd]. split.
      * split; [reflexivity | intros r D; now apply objs_update_other].
      * intros r E. discriminate E.
    + destruct (add_returns c this value h NE G) as [h' [R [_ S]]].
      rewrite R. cbn [fst snd]. split; [exact S |].
      intros r E. now injection E as <-.
  - intros sel1 com sel2. split.
    + destruct (combine_run this sel1 sel2 com h) as [h' [R [Hn _]]]. now rewrite R.
    + intros r. apply combine_frame.
Qed.

(** Object 1 after [class] on the builder and after a [combine] on the
    builder of the builder with itself. *)
Lemma methods_frame_witness :
  let h := run [Add Element the_builder (utf16 "div")] initial in
  objs (fst (add Class the_builder (utf16 "c") h)) 1 = objs h 1
  /\ objs (fst (combine the_builder the_builder (utf16 "+") the_builder h)) 1 = objs h 1.
Proof.
  cbv zeta.
  destruct (methods_frame the_builder (run [Add Element the_builder (utf16 "div")] initial))
    as [Hadd Hcombine].
  split.
  - destruct (Hadd Class (utf16 "c") ltac:(discriminate)) as [[_ Hother] _].
    apply Hother. discriminate.
  - destruct (Hcombine the_builder (utf16 "+") the_builder) as [_ Hother].
    apply Hother; discriminate.
Defined.

(** X12.  A throw does not stick and does not undo.  When a method has
    thrown, the same method called again on the same receiver returns
    normally: [element] returns a new object as usual, and any other method
    appends its fragment to the text the receiver held before the throw,
    which the throw has kept, and records its rank alone. *)
Theorem retry_after_throw (c : category) (this : ref) (value value' : jsstring)
    (h h' : heap) (e : error) :
  add c this value h = (h', Throw e) ->
  exists h'' r,
    add c this value' h' = (h'', Normal r)
    /\ (c = Element -> r = next h /\ objs h'' r = {| result := value'; index := [1] |})
    /\ (c <> Element ->
        r = this
        /\ objs h'' this = {| result := result (objs h this) ++ render c value';
                              index := [rank c] |}).
Proof.
  intros R. destruct (add_throw_inv c this value h h' e R) as [_ ->].
  assert (G : guard c (index (objs (cleared this h) this)) = None).
  { unfold cleared. rewrite objs_update_same. apply guard_nil. }
  destruct (category_eq_dec c Element) as [-> | NE].
  - destruct (element_returns this value' (cleared this h) G) as [h'' [R' [Hnew _]]].
    exists h'', (next h). split; [exact R' | split; [now split | congruence]].
  - destruct (add_returns c this value' (cleared this h) NE G) as [h'' [R' [Hthis _]]].
    exists h'', this. split; [exact R' | split; [congruence | intros _; split; [reflexivity |]]].
    rewrite Hthis. unfold cleared. rewrite objs_update_same. reflexivity.
Qed.

(** [builder.id('a').id('b')] throws; [builder.id('c')] then gives
    [#a#c]. *)
Lemma retry_after_throw_witness :
  let h := run [Add Id the_builder (utf16 "a")] initial in
  let h' := fst (add Id the_builder (utf16 "b") h) in
  snd (add Id the_builder (utf16 "b") h) = Throw DuplicateError
  /\ exists h'', add Id the_builder (utf16 "c") h' = (h'', Normal the_builder)
                 /\ objs h'' the_builder = {| result := utf16 "#a#c"; index := [2] |}.
Proof.
  cbv zeta. split; [reflexivity |].
  destruct (retry_after_throw Id the_builder (utf16 "b") (utf16 "c")
              (run [Add Id the_builder (utf16 "a")] initial)
              (fst (add Id the_builder (utf16 "b")
                      (run [Add Id the_builder (utf16 "a")] initial)))
              DuplicateError eq_refl)
    as [h'' [r [R [_ Hother]]]].
  destruct (Hother ltac:(discriminate)) as [-> Hthis].
  exists h''. split; [exact R | rewrite Hthis; reflexivity].
Defined.

(** X14.  One receiver holds one text.  In
    [builder.combine(builder.combine(a, c1, b), c3, builder.combine(c, c2, d)).stringify()],
    with [c] and [d] two objects other than the builder, [a] and [b], the
    second inner [combine] overwrites what the first left in the builder, and
    the outer one reads the builder twice: the string returned is
    [c c2 d c3 ] with nothing after the last space, and the texts of [a] and
    [b] are lost. *)
Theorem combine_both_nested_loses (this a b c d : ref) (c1 c2 c3 : jsstring) (h : heap) :
  c <> this -> d <> this -> c <> d ->
  c <> a -> c <> b -> d <> a -> d <> b ->
  snd (combine_both_nested this a c1 b c c2 d c3 h) =
  Normal ((result (objs h c) ++ utf16 " " ++ c2 ++ utf16 " " ++ result (objs h d))
            ++ utf16 " " ++ c3 ++ utf16 " ").
Proof.
  intros Dc Dd Dcd Dca Dcb Dda Ddb. unfold combine_both_nested.
  destruct (combine_run this a b c1 h) as [h1 [R1 _]].
  pose proof (combine_frame this a b c1 h c Dc Dca Dcb) as Fc.
  pose proof (combine_frame this a b c1 h d Dd Dda Ddb) as Fd.
  rewrite R1 in Fc, Fd. cbn [fst] in Fc, Fd.
  destruct (combine_run this c d c2 h1) as [h2 [R2 [_ [H2 _]]]].
  destruct (combine_run this this this c3 h2) as [h3 [R3 [_ [H3 _]]]].
  destruct (stringify_run this h3) as [h4 [R4 _]].
  rewrite (bind_normal _ _ _ _ _ R1), (bind_normal _ _ _ _ _ R2),
    (bind_normal _ _ _ _ _ R3), R4. cbn [snd].
  rewrite H3, H2, Fc, Fd, Nat.eqb_refl.
  replace (Nat.eqb d c) with false by (symmetry; apply Nat.eqb_neq; congruence).
  rewrite app_nil_r, <- !app_assoc. reflexivity.
Qed.

(** The builder combined with itself on both sides, from four selectors. *)
Lemma combine_both_nested_loses_witness :
  let h := run [Add Element 0 (utf16 "a"); Add Element 0 (utf16 "b");
                Add Element 0 (utf16 "c"); Add Element 0 (utf16 "d")] initial in
  snd (combine_both_nested the_builder 1 (utf16 "+") 2 3 (utf16 "~") 4 (utf16 ">") h)
  = Normal (utf16 "c ~ d > ").
Proof.
  cbv zeta.
  rewrite (combine_both_nested_loses the_builder 1 2 3 4 (utf16 "+") (utf16 "~") (utf16 ">"));
    try discriminate.
  reflexivity.
Defined.

(** *** Which chains the builder accepts *)

Lemma rank_injective (c d : category) : rank c = rank d -> c = d.
Proof. destruct c, d; simpl; intros E; try reflexivity; discriminate E. Qed.

Lemma guard_none_iff (c : category) (l : list nat) :
  c <> Element ->
  guard c l = None <->
  highest l <= rank c /\ (at_most_once c = true -> ~ In (rank c) l).
Proof.
  intros NE.
  assert (E : existsb (Nat.ltb (rank c)) l = false <-> highest l <= rank c).
  { rewrite existsb_ltb_highest. apply Nat.ltb_ge. }
  pose proof (array_includes_In l (rank c)) as I.
  destruct c; try congruence; cbn [guard rank at_most_once] in *.
  all: repeat match goal with
         | |- context [array_includes ?l ?x] => destruct (array_includes l x) eqn:?
         | |- context [existsb ?f ?l] => destruct (existsb f l) eqn:?
         end.
  all: split; [try discriminate; intros _ | try reflexivity; intros [Hh Ho]].
  all: try (split; [now apply E | ]).
  all: try discriminate.
  all: try (intros _ C; apply I in C; discriminate C).
  all: try (apply E in Hh; discriminate Hh).
  all: exfalso; apply (Ho eq_refl); now apply I.
Qed.

Lemma nondecreasing_cons (x : nat) (l : list nat) :
  nondecreasing (x :: l) = true <->
  (forall y, In y l -> x <= y) /\ nondecreasing l = true.
Proof.
  revert x. induction l as [| y l IH]; intros x.
  - simpl. split; [intros _; split; [intros y [] | reflexivity] | reflexivity].
  - change (nondecreasing (x :: y :: l)) with ((x <=? y) && nondecreasing (y :: l)).
    rewrite andb_true_iff, Nat.leb_le. split.
    + intros [Hxy Hl]. split; [| exact Hl].
      intros z [<- | Hz]; [exact Hxy |].
      apply IH in Hl. destruct Hl as [Hy _]. specialize (Hy z Hz). lia.
    + intros [Hall Hl]. split; [apply Hall; now left | exact Hl].
Qed.

(** What a chain needs of what the receiver records and of itself. *)
Lemma accepts_iff (cs : list category) :
  Forall (fun c => c <> Element) cs ->
  forall l,
    accepts l cs = true <->
    (forall c, In c cs -> highest l <= rank c)
    /\ (forall c, In c cs -> at_most_once c = true -> ~ In (rank c) l)
    /\ nondecreasing (map rank cs) = true
    /\ count_occ category_eq_dec cs Id <= 1
    /\ count_occ category_eq_dec cs PseudoElement <= 1.
Proof.
  induction 1 as [| c cs NE _ IH]; intros l.
  - simpl. split; [| reflexivity]. intros _. repeat split; try lia; intros c [].
  - cbn [accepts map]. rewrite nondecreasing_cons.
    destruct (guard c l) as [e |] eqn:G.
    + split; [discriminate |]. intros [Hh [Ho _]].
      assert (guard c l = None) as C.
      { apply guard_none_iff; [exact NE |]. split; [apply Hh | apply Ho]; now left. }
      congruence.
    + apply guard_none_iff in G; [| exact NE]. destruct G as [Gh Go].
      rewrite IH. clear IH. split.
      * intros [Hh [Ho [Hs [Hi Hp]]]]. split; [| split; [| split; [| split]]].
        -- intros d [<- | Hd]; [exact Gh |]. specialize (Hh d Hd).
           rewrite highest_app in Hh. lia.
        -- intros d [<- | Hd] Hd1; [now apply Go |].
           intros C. apply (Ho d Hd Hd1). apply in_or_app. now left.
        -- split; [| exact Hs]. intros y Hy. apply in_map_iff in Hy.
           destruct Hy as [d [<- Hd]]. specialize (Hh d Hd).
           rewrite highest_app in Hh. lia.
        -- cbn [count_occ]. destruct (category_eq_dec c Id) as [-> | _]; [| exact Hi].
           rewrite (proj1 (count_occ_not_In category_eq_dec cs Id)); [lia |].
           intros C. apply (Ho Id C eq_refl). apply in_or_app. right. now left.
        -- cbn [count_occ].
           destruct (category_eq_dec c PseudoElement) as [-> | _]; [| exact Hp].
           rewrite (proj1 (count_occ_not_In category_eq_dec cs PseudoElement)); [lia |].
           intros C. apply (Ho PseudoElement C eq_refl). apply in_or_app. right. now left.
      * intros [Hh [Ho [[Hall Hs] [Hi Hp]]]]. cbn [count_occ] in Hi, Hp.
        split; [| split; [| split; [| split]]].
        -- intros d Hd. rewrite highest_app.
           assert (rank c <= rank d) by (apply Hall, in_map, Hd).
           assert (highest l <= rank d) by (apply Hh; now right). lia.
        -- intros d Hd Hd1 C. apply in_app_or in C. destruct C as [C | [C | []]].
           ++ apply (Ho d (or_intror Hd) Hd1 C).
           ++ apply rank_injective in C. subst d.
              destruct c; try discriminate Hd1; try congruence.
              ** destruct (category_eq_dec Id Id) as [_ | C]; [| congruence].
                 apply (count_occ_In category_eq_dec) in Hd. lia.
              ** destruct (category_eq_dec PseudoElement PseudoElement) as [_ | C];
                   [| congruence].
                 apply (count_occ_In category_eq_dec) in Hd. lia.
        -- exact Hs.
        -- destruct (category_eq_dec c Id); lia.
        -- destruct (category_eq_dec c PseudoElement); lia.
Qed.

Lemma accepts_well_ordered (cs : list category) (l : list nat) :
  Forall (fun c => c <> Element) cs ->
  (forall x, In x l -> x = 1) ->
  accepts l cs = well_ordered cs.
Proof.
  intros NE Hl.
  assert (Hh : highest l <= 1).
  { induction l as [| x l IH]; simpl; [lia |].
    assert (x = 1) by (apply Hl; now left).
    assert (highest l <= 1) by (apply IH; intros y Hy; apply Hl; now right). lia. }
  apply eq_true_iff_eq. rewrite (accepts_iff cs NE l). unfold well_ordered.
  rewrite !andb_true_iff, !Nat.leb_le. split.
  - intros [_ [_ [Hs [Hi Hp]]]]. now repeat split.
  - intros [[Hs Hi] Hp]. repeat split; try assumption.
    + intros c _. pose proof (rank_bounds c). lia.
    + intros c Hc _ C. apply Hl in C.
      rewrite Forall_forall in NE. apply (NE c Hc).
      now apply rank_injective.
Qed.

(** A chain returns exactly when each guard passes in turn. *)
Lemma add_chain_accepts (this : ref) (fragments : list (category * jsstring)) :
  Forall (fun f => fst f <> Element) fragments ->
  forall h,
    if accepts (index (objs h this)) (map fst fragments)
    then exists h', add_chain this fragments h = (h', Normal this)
    else exists h' e, add_chain this fragments h = (h', Throw e).
Proof.
  induction 1 as [| [c v] fragments NE _ IH]; intros h.
  - simpl. now exists h.
  - cbn [map fst accepts add_chain]. cbn [fst] in NE.
    destruct (guard c (index (objs h this))) as [e |] eqn:G.
    + exists (cleared this h), e.
      now rewrite (bind_throw _ _ _ _ _ (add_throws c this v h e G)).
    + destruct (add_returns c this v h NE G) as [h1 [R1 [H1 _]]].
      rewrite (bind_normal _ _ _ _ _ R1).
      specialize (IH h1). rewrite H1 in IH. exact IH.
Qed.

(** X13.  On a receiver that records nothing, or an element only (a builder
    just stringified, or one [element] has just returned), a chain of [id],
    [class], [attr], [pseudoClass] and [pseudoElement] calls returns exactly
    when its categories come in the order id, class, attribute, pseudo-class,
    pseudo-element with at most one id and at most one pseudo-element;
    otherwise one of its calls throws.  When it returns, [stringify()] gives
    the text the receiver held followed by the fragments in the order of the
    calls, and leaves the receiver empty. *)
Theorem chain_accepted_iff_ordered (this : ref) (fragments : list (category * jsstring))
    (h : heap) :
  Forall (fun f => fst f <> Element) fragments ->
  (forall x, In x (index (objs h this)) -> x = 1) ->
  (well_ordered (map fst fragments) = true ->
   exists h',
     (r <- add_chain this fragments ;; stringify r) h
     = (h', Normal (result (objs h this) ++ render_all fragments))
     /\ objs h' this = {| result := []; index := [] |})
  /\ (well_ordered (map fst fragments) = false ->
      exists h' e, add_chain this fragments h = (h', Throw e)).
Proof.
  intros NE Hl.
  pose proof (add_chain_accepts this fragments NE h) as A.
  rewrite (accepts_well_ordered (map fst fragments) _) in A.
  2: { apply Forall_map. exact NE. }
  2: { exact Hl. }
  split; intros W; rewrite W in A.
  - destruct A as [h1 R1].
    destruct (add_chain_records this fragments NE h h1 this R1) as [_ H1].
    destruct (stringify_run this h1) as [h2 [R2 [H2 _]]].
    exists h2. rewrite (bind_normal _ _ _ _ _ R1), R2, H1. split; [reflexivity | exact H2].
  - exact A.
Qed.

(** [builder.id('main').class('container').class('editable').stringify()],
    and [builder.pseudoClass('hover').attr('title')], which throws. *)
Lemma chain_accepted_iff_ordered_witness :
  snd ((r <- add_chain the_builder [(Id, utf16 "main"); (Class, utf16 "container");
                                    (Class, utf16 "editable")] ;; stringify r) initial)
  = Normal (utf16 "#main.container.editable")
  /\ exists h' e, add_chain the_builder [(PseudoClass, utf16 "hover");
                                         (Attribute, utf16 "title")] initial
                  = (h', Throw e).
Proof.
  split.
  - destruct (proj1 (chain_accepted_iff_ordered the_builder
                       [(Id, utf16 "main"); (Class, utf16 "container");
                        (Class, utf16 "editable")] initial
                       ltac:(repeat constructor; discriminate)
                       ltac:(intros x []))
                eq_refl) as [h' [R _]].
    rewrite R. reflexivity.
  - apply (proj2 (chain_accepted_iff_ordered the_builder
                    [(PseudoClass, utf16 "hover"); (Attribute, utf16 "title")] initial
                    ltac:(repeat constructor; discriminate)
                    ltac:(intros x []))).
    reflexivity.
Defined.

(** *** What every reachable [index] looks like *)

(** What one call does to the [index] of one object: nothing, or a new empty
    array, or the array of a new object, or one rank pushed after its guard
    passed. *)
Lemma exec_index (c : call) (h : heap) (r : ref) :
  index (objs (exec c h) r) = index (objs h r)
  \/ index (objs (exec c h) r) = []
  \/ index (objs (exec c h) r) = [1]
  \/ exists d, d <> Element
               /\ guard d (index (objs h r)) = None
               /\ index (objs (exec c h) r) = index (objs h r) ++ [rank d].
Proof.
  destruct c as [d this value | this sel1 com sel2 | this]; cbn [exec].
  - destruct (guard d (index (objs h this))) as [e |] eqn:G.
    + rewrite (add_throws d this value h e G). cbn [fst]. unfold cleared.
      destruct (Nat.eq_dec r this) as [-> | D].
      * right. left. now rewrite objs_update_same.
      * left. now rewrite objs_update_other.
    + destruct (category_eq_dec d Element) as [-> | NE].
      * destruct (element_returns this value h G) as [h' [R [Hnew [_ Hold]]]].
        cbn [add]. rewrite R. cbn [fst]. destruct (Nat.eq_dec r (next h)) as [-> | D].
        -- right. right. left. now rewrite Hnew.
        -- left. now rewrite Hold.
      * destruct (add_returns d this value h NE G) as [h' [R [Hthis [_ Hold]]]].
        rewrite R. cbn [fst]. destruct (Nat.eq_dec r this) as [-> | D].
        -- right. right. right. exists d. rewrite Hthis. now repeat split.
        -- left. now rewrite Hold.
  - destruct (combine_run this sel1 sel2 com h) as [h' [R [_ [_ Hidx]]]].
    rewrite R. cbn [fst]. rewrite Hidx. destruct (_ || _); [right | ]; now left.
  - destruct (stringify_run this h) as [h' [R [Hthis [_ Hold]]]].
    rewrite R. cbn [fst]. destruct (Nat.eq_dec r this) as [-> | D].
    + right. left. now rewrite Hthis.
    + left. now rewrite Hold.
Qed.

Lemma nondecreasing_push (l : list nat) (k : nat) :
  nondecreasing l = true -> highest l <= k -> nondecreasing (l ++ [k]) = true.
Proof.
  induction l as [| x l IH]; intros Hs Hk.
  - reflexivity.
  - cbn [app]. apply nondecreasing_cons in Hs. destruct Hs as [Hall Hs].
    cbn [highest fold_right] in Hk. fold (highest l) in Hk.
    apply nondecreasing_cons. split.
    + intros y Hy. apply in_app_or in Hy. destruct Hy as [Hy | [<- | []]];
        [now apply Hall | lia].
    + apply IH; [exact Hs | lia].
Qed.

Lemma ordered_index_push (l : list nat) (d : category) :
  d <> Element ->
  guard d l = None ->
  ordered_index l = true ->
  ordered_index (l ++ [rank d]) = true.
Proof.
  intros NE G. apply guard_none_iff in G; [| exact NE]. destruct G as [Gh Go].
  unfold ordered_index. rewrite !andb_true_iff, !Nat.leb_le, !count_occ_app.
  intros [[[Hs H1] H2] H6].
  assert (Z : forall x, at_most_once d = true -> x = rank d -> count_occ Nat.eq_dec l x = 0).
  { intros x Hd ->. apply count_occ_not_In. now apply Go. }
  repeat split.
  - now apply nondecreasing_push.
  - destruct d; cbn [count_occ rank]; try congruence; simpl; lia.
  - destruct d; cbn [count_occ rank]; try congruence; simpl; try lia.
    rewrite (Z 2 eq_refl eq_refl). lia.
  - destruct d; cbn [count_occ rank]; try congruence; simpl; try lia.
    rewrite (Z 6 eq_refl eq_refl). lia.
Qed.

(** X15.  The order of the thrown message is kept in every store calls can
    reach: whatever was called, and whatever threw, the ranks every object
    records never go down and hold at most one element, one id and one
    pseudo-element. *)
Theorem reachable_index_ordered (h : heap) (r : ref) :
  reachable h -> ordered_index (index (objs h r)) = true.
Proof.
  intros [calls ->]. revert r.
  assert (P : forall h0, (forall r, ordered_index (index (objs h0 r)) = true) ->
                         forall r, ordered_index (index (objs (run calls h0) r)) = true).
  { induction calls as [| c calls IH]; intros h0 H0 r; [apply H0 |].
    cbn [run fold_left]. apply IH. intros r'.
    destruct (exec_index c h0 r') as [E | [E | [E | [d [NE [G E]]]]]]; rewrite E.
    - apply H0.
    - reflexivity.
    - reflexivity.
    - now apply ordered_index_push. }
  apply P. intros r. reflexivity.
Qed.

(** The builder after [builder.id('a').class('b').class('c')], and after the
    [id('d')] that throws next. *)
Lemma reachable_index_ordered_witness :
  index (objs (run [Add Id 0 (utf16 "a"); Add Class 0 (utf16 "b"); Add Class 0 (utf16 "c")]
                 initial) the_builder) = [2; 3; 3]
  /\ ordered_index
       (index (objs (run [Add Id 0 (utf16 "a"); Add Class 0 (utf16 "b");
                          Add Class 0 (utf16 "c"); Add Id 0 (utf16 "d")] initial)
                 the_builder)) = true.
Proof.
  split; [reflexivity |].
  apply (reachable_index_ordered
           (run [Add Id 0 (utf16 "a"); Add Class 0 (utf16 "b");
                 Add Class 0 (utf16 "c"); Add Id 0 (utf16 "d")] initial) the_builder).
  eexists. reflexivity.
Defined.
